(** * DocConnect: the call-establishment subsystem

    A shallow embedding of the signalling server
    ([server/src/socket.js]) and of the client-side call state
    ([client/src/context/SocketContext.tsx]), with the properties of the
    room registry, the signalling relay and the peer sessions that the
    specification states about them. *)

From Stdlib Require Import Ascii.
From stdpp Require Import gmap strings list fin_maps.

(** ** The server: [server/src/socket.js] *)

Module Server.

(** Connection ids ([socket.id]), room ids and user ids are JavaScript
    strings; offers, answers and candidates are opaque JSON payloads. *)
Abbreviation SocketId := string (only parsing).
Abbreviation RoomId := string (only parsing).
Abbreviation UserId := string (only parsing).
Abbreviation Payload := string (only parsing).

(** An entry of a room's array: [{ socketId, userId }]. *)
Record Member := mkMember { socketId : SocketId; userId : UserId }.

#[global] Instance Member_eq_dec : EqDecision Member.
Proof. solve_decision. Defined.

(** Events the server sends to clients. *)
Inductive ServerEvent :=
| roomUsers (usersInRoom : list Member)
| userJoinedRoom (user : Member)
| userLeftRoom (user : Member)
| receiveOffer (offer : Payload) (from : SocketId)
| receiveAnswer (answer : Payload) (from : SocketId)
| receiveIceCandidate (candidate : Payload) (from : SocketId).

#[global] Instance ServerEvent_eq_dec : EqDecision ServerEvent.
Proof. solve_decision. Defined.

(** The three ways the handlers address an emission:
    [socket.emit], [socket.to(room).emit] and [io.to(room).emit]. *)
Inductive Target :=
| ToSender
| ToRoomExceptSender (room : RoomId)
| ToRoom (room : RoomId).

#[global] Instance Target_eq_dec : EqDecision Target.
Proof. solve_decision. Defined.

(** One call of [emit]: how it was addressed, what was sent, and the
    sockets that receive it (resolved when the call is made). *)
Record Emission := mkEmission {
  em_target : Target;
  em_event : ServerEvent;
  em_recipients : list SocketId
}.

(** The state the module closes over: the two objects [users] and [rooms],
    plain objects used as maps, given here by their own string keys (what
    [rooms[roomId]] is for a key the object does not have is [room_value]
    below); and the part of socket.io the handlers rely on: the live sockets
    and the socket.io rooms ([socket.join], [socket.leave], [to(room)]),
    where a room is the set of sockets that joined it and every socket joins
    the room named by its own id when it connects. *)
Record State := mkState {
  users : gmap string string;
  rooms : gmap string (list Member);
  sockets : gset string;
  sio_rooms : gmap string (gset string)
}.

Definition init : State :=
  {| users := ∅; rooms := ∅; sockets := ∅; sio_rooms := ∅ |}.

(** *** socket.io primitives *)

Definition room_sockets (st : State) (room : string) : gset string :=
  default ∅ (sio_rooms st !! room).

Definition set_sio_rooms (st : State) (a : gmap string (gset string)) : State :=
  {| users := users st; rooms := rooms st; sockets := sockets st; sio_rooms := a |}.

Definition set_rooms (st : State) (r : gmap string (list Member)) : State :=
  {| users := users st; rooms := r; sockets := sockets st; sio_rooms := sio_rooms st |}.

Definition set_users (st : State) (u : gmap string string) : State :=
  {| users := u; rooms := rooms st; sockets := sockets st; sio_rooms := sio_rooms st |}.

(** [socket.join(room)] *)
Definition socket_join (sid room : string) (st : State) : State :=
  set_sio_rooms st (<[room := {[sid]} ∪ room_sockets st room]> (sio_rooms st)).

(** A socket.io room that loses its last socket is dropped. *)
Definition without (sid : string) (X : gset string) : option (gset string) :=
  let X' := X ∖ {[sid]} in
  if decide (X' = ∅) then None else Some X'.

(** [socket.leave(room)] *)
Definition socket_leave (sid room : string) (st : State) : State :=
  match sio_rooms st !! room with
  | None => st
  | Some X =>
      set_sio_rooms st
        match without sid X with
        | None => delete room (sio_rooms st)
        | Some X' => <[room := X']> (sio_rooms st)
        end
  end.

(** On transport close socket.io takes the socket out of every room before
    the ['disconnect'] listeners run. *)
Definition socket_leave_all (sid : string) (st : State) : State :=
  {| users := users st; rooms := rooms st;
     sockets := sockets st ∖ {[sid]};
     sio_rooms := omap (without sid) (sio_rooms st) |}.

(** [socket.emit(ev)] *)
Definition emit_sender (sid : string) (ev : ServerEvent) : Emission :=
  mkEmission ToSender ev [sid].

(** [socket.to(room).emit(ev)]: socket.io 4 makes of it a broadcast to the
    room [room] except the room named by the id of the socket, so it reaches
    every socket of [room] that is not in the room named [sid]. *)
Definition emit_room_except (st : State) (sid room : string) (ev : ServerEvent) : Emission :=
  mkEmission (ToRoomExceptSender room) ev
    (elements (room_sockets st room ∖ room_sockets st sid)).

(** [io.to(room).emit(ev)]: every socket of the room. *)
Definition emit_room (st : State) (room : string) (ev : ServerEvent) : Emission :=
  mkEmission (ToRoom room) ev (elements (room_sockets st room)).

(** *** The object [rooms] *)

(** The names every object inherits from [Object.prototype]. *)
Definition inherited (k : string) : bool :=
  bool_decide (k ∈ ["constructor"; "__proto__"; "hasOwnProperty"; "isPrototypeOf";
                    "propertyIsEnumerable"; "toString"; "toLocaleString"; "valueOf";
                    "__defineGetter__"; "__defineSetter__"; "__lookupGetter__";
                    "__lookupSetter__"]).

(** What [rooms[roomId]] evaluates to: the array under a key of its own,
    else what the name inherits (a function, or the prototype for
    [__proto__]: truthy, and with neither [push] nor [filter]), else
    [undefined]. *)
Inductive RoomValue :=
| array (l : list Member)
| inherited_value
| undefined.

#[global] Instance RoomValue_eq_dec : EqDecision RoomValue.
Proof. solve_decision. Defined.

Definition room_value (st : State) (roomId : string) : RoomValue :=
  match rooms st !! roomId with
  | Some l => array l
  | None => if inherited roomId then inherited_value else undefined
  end.

(** *** The listeners *)

(** [user => user.socketId !== socket.id] *)
Definition others (sid : string) (l : list Member) : list Member :=
  filter (λ user, socketId user ≠ sid) l.

(** [rooms[roomId].find(user => user.socketId === socket.id)] *)
Definition find_user (sid : string) (l : list Member) : option Member :=
  List.find (λ user, bool_decide (socketId user = sid)) l.

(** [io.on('connection', ...)]: the socket exists and sits in its own room. *)
Definition on_connection (sid : string) (st : State) : State * list Emission :=
  let st := {| users := users st; rooms := rooms st;
               sockets := {[sid]} ∪ sockets st; sio_rooms := sio_rooms st |} in
  (socket_join sid sid st, []).

(** ['userJoined'] *)
Definition on_userJoined (sid : string) (userId : string) (st : State)
  : State * list Emission :=
  (set_users st (<[sid := userId]> (users st)), []).

(** ['joinRoom'].  When [rooms[roomId]] is an inherited value, line 24 takes
    it for a room and [push] on line 29 throws [TypeError]: the listener
    ends there, after [socket.join] and before anything is sent. *)
Definition on_joinRoom (sid : string) (roomId userId : string) (st : State)
  : State * list Emission :=
  let st := socket_join sid roomId st in
  match room_value st roomId with
  | inherited_value => (st, [])
  | _ =>
      let st := match rooms st !! roomId with
                | None => set_rooms st (<[roomId := []]> (rooms st))
                | Some _ => st
                end in
      let st := set_rooms st
                  (<[roomId := default [] (rooms st !! roomId) ++ [mkMember sid userId]]>
                     (rooms st)) in
      let usersInRoom := others sid (default [] (rooms st !! roomId)) in
      (st, [emit_sender sid (roomUsers usersInRoom);
            emit_room_except st sid roomId (userJoinedRoom (mkMember sid userId))])
  end.

(** ['sendOffer'], ['sendAnswer'], ['sendIceCandidate'] *)
Definition on_sendOffer (sid : string) (offer to from : string) (st : State)
  : State * list Emission :=
  (st, [emit_room st to (receiveOffer offer sid)]).

Definition on_sendAnswer (sid : string) (answer to from : string) (st : State)
  : State * list Emission :=
  (st, [emit_room st to (receiveAnswer answer sid)]).

Definition on_sendIceCandidate (sid : string) (candidate to from : string) (st : State)
  : State * list Emission :=
  (st, [emit_room st to (receiveIceCandidate candidate sid)]).

(** ['leaveRoom'].  When [rooms[roomId]] is an inherited value, [filter] on
    line 77 throws [TypeError]: the listener ends there and [socket.leave] on
    line 91 is not reached. *)
Definition on_leaveRoom (sid : string) (roomId userId : string) (st : State)
  : State * list Emission :=
  match room_value st roomId with
  | inherited_value => (st, [])
  | undefined => (socket_leave sid roomId st, [])
  | array l =>
      let l' := others sid l in
      let '(st, out) :=
        if bool_decide (length l' = 0)
        then (set_rooms st (delete roomId (rooms st)), [])
        else (set_rooms st (<[roomId := l']> (rooms st)),
              [emit_room_except st sid roomId (userLeftRoom (mkMember sid userId))]) in
      (socket_leave sid roomId st, out)
  end.

(** The body of the [forEach] of the ['disconnect'] listener, for one key. *)
Definition cleanup_room (st : State) (sid : string)
    (acc : gmap string (list Member) * list Emission) (roomId : string)
  : gmap string (list Member) * list Emission :=
  match acc.1 !! roomId with
  | None => acc
  | Some l =>
      match find_user sid l with
      | None => acc
      | Some userInRoom =>
          let l' := others sid l in
          let out := acc.2 ++ [emit_room_except st sid roomId
                                 (userLeftRoom (mkMember sid (userId userInRoom)))] in
          if bool_decide (length l' = 0)
          then (delete roomId acc.1, out)
          else (<[roomId := l']> acc.1, out)
      end
  end.

(** [Object.keys(rooms)] *)
Definition keys (r : gmap string (list Member)) : list string :=
  (map_to_list r).*1.

(** [Object.keys(rooms).forEach(...)]: the clean-up of the registry. *)
Definition cleanup_rooms (sid : string) (st : State) : State * list Emission :=
  let '(r, out) := foldl (cleanup_room st sid) (rooms st, []) (keys (rooms st)) in
  (set_rooms st r, out).

(** ['disconnect']: the socket has left its socket.io rooms, the registry is
    cleaned, and then [users[socket.id]] is deleted. *)
Definition on_disconnect (sid : string) (st : State) : State * list Emission :=
  let st := socket_leave_all sid st in
  let '(st, out) := cleanup_rooms sid st in
  (set_users st (delete sid (users st)), out).

(** *** Inputs and runs *)

Inductive ClientEvent :=
| userJoined (userId : UserId)
| joinRoom (roomId : RoomId) (userId : UserId)
| sendOffer (offer : Payload) (to from : string)
| sendAnswer (answer : Payload) (to from : string)
| sendIceCandidate (candidate : Payload) (to from : string)
| leaveRoom (roomId : RoomId) (userId : UserId).

Inductive Input :=
| Connection (sid : SocketId)
| Message (sid : SocketId) (ev : ClientEvent)
| Disconnect (sid : SocketId).

Definition handle (i : Input) (st : State) : State * list Emission :=
  match i with
  | Connection sid => on_connection sid st
  | Message sid (userJoined u) => on_userJoined sid u st
  | Message sid (joinRoom r u) => on_joinRoom sid r u st
  | Message sid (sendOffer o to from) => on_sendOffer sid o to from st
  | Message sid (sendAnswer a to from) => on_sendAnswer sid a to from st
  | Message sid (sendIceCandidate c to from) => on_sendIceCandidate sid c to from st
  | Message sid (leaveRoom r u) => on_leaveRoom sid r u st
  | Disconnect sid => on_disconnect sid st
  end.

Definition step (st : State) (i : Input) : State := (handle i st).1.

Definition run (inputs : list Input) (st : State) : State := foldl step st inputs.

(** The members of a room as the registry has them; no key, no members. *)
Definition members (st : State) (roomId : string) : list Member :=
  default [] (rooms st !! roomId).

Definition member_ids (st : State) (roomId : string) : list string :=
  socketId <$> members st roomId.

(** What a socket receives from a list of emissions, in order. *)
Definition received (sid : string) (out : list Emission) : list ServerEvent :=
  em_event <$> filter (λ e, sid ∈ em_recipients e) out.





(** No [joinRoom] of the run comes from a socket that is a member of the
    room at that moment. *)
Fixpoint joins_fresh (inputs : list Input) (st : State) : Prop :=
  match inputs with
  | [] => True
  | i :: rest =>
      match i with
      | Message sid (joinRoom r _) => sid ∉ member_ids st r
      | _ => True
      end ∧ joins_fresh rest (step st i)
  end.

(** What the ['disconnect'] listener makes of one room, and the emission
    it makes for it. *)
Definition room_after (sid : string) (o : option (list Member)) : option (list Member) :=
  l ← o;
  match find_user sid l with
  | None => Some l
  | Some _ => if bool_decide (length (others sid l) = 0) then None else Some (others sid l)
  end.

Definition left_event (st : State) (sid roomId : string) (o : option (list Member))
  : option Emission :=
  l ← o;
  userInRoom ← find_user sid l;
  Some (emit_room_except st sid roomId (userLeftRoom (mkMember sid (userId userInRoom)))).

(** Invariants of the registry. *)
Definition rooms_nonempty (st : State) : Prop :=
  ∀ r l, rooms st !! r = Some l → l ≠ [].

Definition rooms_nodup (st : State) : Prop :=
  ∀ r, NoDup (member_ids st r).

(** A member of a room of the registry sits in the socket.io room of that
    name. *)
Definition members_joined (st : State) : Prop :=
  ∀ r m, m ∈ members st r → socketId m ∈ room_sockets st r.

End Server.

(** ** The client: [client/src/context/SocketContext.tsx] *)

Module Client.

(** [SocketProvider] is a React component.  Its state is what the [useState]
    hooks hold; a listener is a closure made during one render and reads the
    values of that render, while the setters write the state the next render
    will see.  The embedding keeps the two apart: a listener takes the render
    [r] it closes over and the world [w] it acts on.

    A [MediaStream], a [Peer] and a [Map] are JavaScript objects: they are
    named here by their identity, and their contents live in a heap.  Two
    references to the same [Map] see each other's updates; this matters for
    [setPeers(prev => new Map(prev.set(...)))], which writes into the map
    of the current state before it copies it.

    Inside the component the name [createPeerConnection] is the component's
    own four-argument function (line 148), which shadows the import of line
    3: the call on line 154 is a call of that function itself. *)
Abbreviation MediaStream := nat (only parsing).
Abbreviation PeerRef := nat (only parsing).
Abbreviation MapRef := nat (only parsing).
Abbreviation Payload := string (only parsing).

(** The values of one render of [SocketProvider]: what [useAuth] and the
    [useState] hooks return.  Every function created during a render closes
    over the values of that render.  [usersId] is the identity of the [users]
    array, which changes with every [setUsers]. *)
Record Hooks := mkHooks {
  user : option string;
  socket : option string;
  peers : MapRef;
  localStream : option MediaStream;
  remoteStreams : MapRef;
  currentRoom : option string;
  isCallActive : bool;
  users : list Server.Member;
  usersId : nat
}.

#[global] Instance Hooks_eq_dec : EqDecision Hooks.
Proof. solve_decision. Defined.

(** What [peer.signal] was given: a description as received, or
    [{ candidate }]. *)
Inductive SignalArg :=
| description (d : Payload)
| candidate_of (c : Payload).

(** What the ['signal'] event of a peer carries: [data.type] is ['offer'] or
    ['answer'], or [data.candidate] is set, or none of these. *)
Inductive SignalData :=
| data_offer (d : Payload)
| data_answer (d : Payload)
| data_candidate (d : Payload)
| data_other (d : Payload).

(** A [Peer] object, with what the listeners set on it close over:
    [remotePeerId], [localPeerId] and the render that ran
    [createPeerConnection]. *)
Record Peer := mkPeer {
  initiator : bool;
  stream : MediaStream;
  remotePeerId : string;
  localPeerId : string;
  env : Hooks;
  signalled : list SignalArg;
  destroyed : bool
}.

(** What the listeners act on: the state the next render will see, the
    render the memoised [startCall] closes over, the heap of [Map]s and
    [Peer]s, the streams whose tracks were stopped, and what was sent on the
    socket, in order. *)
Record World := mkWorld {
  hooks : Hooks;
  startCall_env : Hooks;
  peerMaps : list (gmap string PeerRef);
  streamMaps : list (gmap string MediaStream);
  peerObjs : list Peer;
  stopped : gset MediaStream;
  emitted : list Server.ClientEvent
}.

(** *** Field updates *)

Definition with_hooks (h : Hooks) (w : World) : World :=
  mkWorld h (startCall_env w) (peerMaps w) (streamMaps w) (peerObjs w) (stopped w) (emitted w).
Definition with_startCall_env (h : Hooks) (w : World) : World :=
  mkWorld (hooks w) h (peerMaps w) (streamMaps w) (peerObjs w) (stopped w) (emitted w).
Definition with_peerMaps (x : list (gmap string PeerRef)) (w : World) : World :=
  mkWorld (hooks w) (startCall_env w) x (streamMaps w) (peerObjs w) (stopped w) (emitted w).
Definition with_streamMaps (x : list (gmap string MediaStream)) (w : World) : World :=
  mkWorld (hooks w) (startCall_env w) (peerMaps w) x (peerObjs w) (stopped w) (emitted w).
Definition with_peerObjs (x : list Peer) (w : World) : World :=
  mkWorld (hooks w) (startCall_env w) (peerMaps w) (streamMaps w) x (stopped w) (emitted w).
Definition with_stopped (x : gset MediaStream) (w : World) : World :=
  mkWorld (hooks w) (startCall_env w) (peerMaps w) (streamMaps w) (peerObjs w) x (emitted w).
Definition with_emitted (x : list Server.ClientEvent) (w : World) : World :=
  mkWorld (hooks w) (startCall_env w) (peerMaps w) (streamMaps w) (peerObjs w) (stopped w) x.

(** The state setters; with a value, React stores it for the next render. *)
Definition setPeers (m : MapRef) (w : World) : World :=
  let h := hooks w in
  with_hooks (mkHooks (user h) (socket h) m (localStream h) (remoteStreams h)
                (currentRoom h) (isCallActive h) (users h) (usersId h)) w.
Definition setLocalStream (s : option MediaStream) (w : World) : World :=
  let h := hooks w in
  with_hooks (mkHooks (user h) (socket h) (peers h) s (remoteStreams h)
                (currentRoom h) (isCallActive h) (users h) (usersId h)) w.
Definition setRemoteStreams (m : MapRef) (w : World) : World :=
  let h := hooks w in
  with_hooks (mkHooks (user h) (socket h) (peers h) (localStream h) m
                (currentRoom h) (isCallActive h) (users h) (usersId h)) w.
Definition setCurrentRoom (r : option string) (w : World) : World :=
  let h := hooks w in
  with_hooks (mkHooks (user h) (socket h) (peers h) (localStream h) (remoteStreams h)
                r (isCallActive h) (users h) (usersId h)) w.
Definition setIsCallActive (b : bool) (w : World) : World :=
  let h := hooks w in
  with_hooks (mkHooks (user h) (socket h) (peers h) (localStream h) (remoteStreams h)
                (currentRoom h) b (users h) (usersId h)) w.
Definition setUsers (l : list Server.Member) (w : World) : World :=
  let h := hooks w in
  with_hooks (mkHooks (user h) (socket h) (peers h) (localStream h) (remoteStreams h)
                (currentRoom h) (isCallActive h) l (S (usersId h))) w.

(** *** The heap *)

Definition peerMap (w : World) (a : MapRef) : gmap string PeerRef :=
  default ∅ (peerMaps w !! a).
Definition streamMap (w : World) (a : MapRef) : gmap string MediaStream :=
  default ∅ (streamMaps w !! a).

(** [new Map(...)] with the given entries. *)
Definition new_peerMap (m : gmap string PeerRef) (w : World) : MapRef * World :=
  (length (peerMaps w), with_peerMaps (peerMaps w ++ [m]) w).
Definition new_streamMap (m : gmap string MediaStream) (w : World) : MapRef * World :=
  (length (streamMaps w), with_streamMaps (streamMaps w ++ [m]) w).

(** [socket.emit(...)] on the socket of the given render; [socket?.] with no
    socket sends nothing. *)
Definition emit (r : Hooks) (ev : Server.ClientEvent) (w : World) : World :=
  match socket r with
  | Some _ => with_emitted (emitted w ++ [ev]) w
  | None => w
  end.

(** [peer.destroy()]; a second call does nothing more. *)
Definition destroy_peer (p : Peer) : Peer :=
  mkPeer (initiator p) (stream p) (remotePeerId p) (localPeerId p) (env p)
    (signalled p) true.
Definition destroy (p : PeerRef) (w : World) : World :=
  with_peerObjs (alter destroy_peer p (peerObjs w)) w.

(** [peers.forEach(peer => peer.destroy())] on the map at [a]. *)
Definition destroy_all (a : MapRef) (w : World) : World :=
  foldl (λ w p, destroy p w) w (map_to_list (peerMap w a)).*2.

(** [peer.signal(x)]: a destroyed peer takes no signal (simple-peer throws,
    which ends the listener; [signal] is its last statement). *)
Definition signal_peer (x : SignalArg) (p : Peer) : Peer :=
  if destroyed p then p
  else mkPeer (initiator p) (stream p) (remotePeerId p) (localPeerId p) (env p)
         (signalled p ++ [x]) false.
Definition signal (p : PeerRef) (x : SignalArg) (w : World) : World :=
  with_peerObjs (alter (signal_peer x) p (peerObjs w)) w.

(** [stream.getTracks().forEach(track => track.stop())] *)
Definition stop_tracks (s : MediaStream) (w : World) : World :=
  with_stopped ({[s]} ∪ stopped w) w.

(** *** Calls that may throw *)

(** How a call ends: it returns a value, or it throws; either way the world
    is what the call has made of it by then. *)
Inductive Outcome (A : Type) :=
| returned (a : A) (w : World)
| threw (w : World).

Arguments returned {A} a w.
Arguments threw {A} w.

Definition world_of {A} (o : Outcome A) : World :=
  match o with
  | returned _ w | threw w => w
  end.

(** A call whose value is not used. *)
Definition discard {A} (o : Outcome A) : Outcome unit :=
  match o with
  | returned _ w => returned tt w
  | threw w => threw w
  end.

(** [l.forEach(f)]: an exception ends the loop. *)
Fixpoint forEach {A} (f : A → World → Outcome unit) (l : list A) (w : World)
  : Outcome unit :=
  match l with
  | [] => returned tt w
  | x :: l =>
      match f x w with
      | returned _ w => forEach f l w
      | threw w => threw w
      end
  end.

(** The frames the engine allows on top of a listener before it throws
    [RangeError: Maximum call stack size exceeded]; the number differs
    between engines, and nothing below depends on it. *)
Definition call_stack : nat := 1000.

(** *** [createPeerConnection] (lines 148-217)

    Inside [SocketProvider] the name [createPeerConnection] is the [const]
    of line 148: it shadows the import of line 3.  So the call on line 154
    is a call of this same function, with the options object as
    [remotePeerId] and nothing else; the factory of [services/webrtc.ts],
    the only place with [new Peer], is not called.  The first parameter is
    therefore a connection id or that object, and the next two may be
    [undefined]. *)
Inductive RemoteArg :=
| connection_id (s : string)
| options_object (initiator : bool) (stream : option MediaStream).

(** [peer.on('signal' | 'stream' | 'close' | 'error', ...)] (lines 166-207):
    the listeners of the peer are closures over [remotePeerId],
    [localPeerId] and the render. *)
Definition with_listeners (r : Hooks) (remotePeerId localPeerId : string) (p : Peer) : Peer :=
  mkPeer (initiator p) (stream p) remotePeerId localPeerId r (signalled p) (destroyed p).

(** Lines 166-216, what a frame does with the peer that line 154 returned:
    it sets the listeners, signals the offer if there is one, and
    [setPeers(prev => new Map(prev.set(remotePeerId, peer)))] writes the
    entry into the current map object and then stores a copy of it as the
    next state.  In a frame entered from line 154 [remotePeerId] is the
    options object: its listeners and its entry name no connection id, and
    of such a frame the maps and peers here, which are indexed by connection
    ids, keep the signal and the new [Map]. *)
Definition lines_166_216 (r : Hooks) (remotePeerId : RemoteArg)
    (localPeerId : option string) (incomingOffer : option Payload)
    (peer : PeerRef) (w : World) : World :=
  let w := match remotePeerId, localPeerId with
           | connection_id remote, Some local =>
               with_peerObjs (alter (with_listeners r remote local) peer (peerObjs w)) w
           | _, _ => w
           end in
  let w := match incomingOffer with
           | Some o => signal peer (description o) w
           | None => w
           end in
  let prev := peers (hooks w) in
  let m := match remotePeerId with
           | connection_id remote => <[remote := peer]> (peerMap w prev)
           | options_object _ _ => peerMap w prev
           end in
  let w := with_peerMaps (<[prev := m]> (peerMaps w)) w in
  let '(a, w) := new_peerMap m w in
  setPeers a w.

(** The function, with [stack] frames left.  Its first statement is line
    154, the call of itself with [{ initiator: !incomingOffer, stream,
    config }]; the callee starts in the same way, and so on until no frame
    is left and [RangeError] is thrown, which no frame catches. *)
Fixpoint createPeerConnection (stack : nat) (r : Hooks) (remotePeerId : RemoteArg)
    (localPeerId : option string) (stream : option MediaStream)
    (incomingOffer : option Payload) (w : World) : Outcome PeerRef :=
  match stack with
  | 0 => threw w
  | S stack =>
      match createPeerConnection stack r
              (options_object (bool_decide (incomingOffer = None)) stream)
              None None None w with
      | returned peer w =>
          returned peer (lines_166_216 r remotePeerId localPeerId incomingOffer peer w)
      | threw w => threw w
      end
  end.

(** The listeners that lines 166-207 set on a peer; each reads the closure
    of the peer it belongs to. *)
Definition peer_signal (p : Peer) (data : SignalData) (w : World) : World :=
  match data with
  | data_offer d =>
      emit (env p) (Server.sendOffer d (remotePeerId p) (localPeerId p)) w
  | data_answer d =>
      emit (env p) (Server.sendAnswer d (remotePeerId p) (localPeerId p)) w
  | data_candidate d =>
      emit (env p) (Server.sendIceCandidate d (remotePeerId p) (localPeerId p)) w
  | data_other _ => w
  end.

Definition peer_stream (p : Peer) (remoteStream : MediaStream) (w : World) : World :=
  let prev := remoteStreams (hooks w) in
  let m := <[remotePeerId p := remoteStream]> (streamMap w prev) in
  let w := with_streamMaps (<[prev := m]> (streamMaps w)) w in
  let '(a, w) := new_streamMap m w in
  setRemoteStreams a w.

Definition peer_close (p : Peer) (w : World) : World :=
  let w := match peerMap w (peers (env p)) !! remotePeerId p with
           | Some q => destroy q w
           | None => w
           end in
  let '(newPeers, w) := new_peerMap (delete (remotePeerId p) (peerMap w (peers (env p)))) w in
  let w := setPeers newPeers w in
  let '(newStreams, w) :=
    new_streamMap (delete (remotePeerId p) (streamMap w (remoteStreams (env p)))) w in
  setRemoteStreams newStreams w.

Definition peer_error (p : Peer) (w : World) : World := w.

(** *** The socket listeners (lines 69-135), closures of render [r] *)

(** A listener that throws ends there, with what it has done so far. *)
Definition on_roomUsers (r : Hooks) (roomUsers : list Server.Member) (w : World) : World :=
  let w := setUsers roomUsers w in
  match localStream r, socket r with
  | Some ls, Some id =>
      world_of
        (forEach (λ remoteUser w,
                    discard (createPeerConnection call_stack r
                               (connection_id (Server.socketId remoteUser)) (Some id)
                               (Some ls) None w))
           roomUsers w)
  | _, _ => w
  end.

Definition on_userJoinedRoom (r : Hooks) (u : Server.Member) (w : World) : World :=
  setUsers (users (hooks w) ++ [u]) w.

Definition on_userLeftRoom (r : Hooks) (u : Server.Member) (w : World) : World :=
  let w := setUsers
             (filter (λ x, Server.socketId x ≠ Server.socketId u) (users (hooks w))) w in
  let w := match peerMap w (peers r) !! Server.socketId u with
           | Some p =>
               let w := destroy p w in
               let '(newPeers, w) :=
                 new_peerMap (delete (Server.socketId u) (peerMap w (peers r))) w in
               setPeers newPeers w
           | None => w
           end in
  match streamMap w (remoteStreams r) !! Server.socketId u with
  | Some _ =>
      let '(newStreams, w) :=
        new_streamMap (delete (Server.socketId u) (streamMap w (remoteStreams r))) w in
      setRemoteStreams newStreams w
  | None => w
  end.

Definition on_receiveOffer (r : Hooks) (offer : Payload) (from : string) (w : World) : World :=
  match localStream r, socket r with
  | Some ls, Some id =>
      world_of (createPeerConnection call_stack r (connection_id from) (Some id) (Some ls)
                  (Some offer) w)
  | _, _ => w
  end.

Definition on_receiveAnswer (r : Hooks) (answer : Payload) (from : string) (w : World) : World :=
  match peerMap w (peers r) !! from with
  | Some peer => signal peer (description answer) w
  | None => w
  end.

Definition on_receiveIceCandidate (r : Hooks) (candidate : Payload) (from : string)
    (w : World) : World :=
  match peerMap w (peers r) !! from with
  | Some peer => signal peer (candidate_of candidate) w
  | None => w
  end.

(** *** The functions of the context value (lines 220-278) *)

(** A string state in a condition: [null] and the empty string are falsy. *)
Definition truthy (o : option string) : option string :=
  match o with
  | Some EmptyString | None => None
  | Some s => Some s
  end.

Definition joinRoom (r : Hooks) (roomId : string) (w : World) : World :=
  match socket r, user r with
  | Some _, Some uid =>
      emit r (Server.joinRoom roomId uid) (setCurrentRoom (Some roomId) w)
  | _, _ => w
  end.

Definition leaveRoom (r : Hooks) (w : World) : World :=
  match socket r, truthy (currentRoom r), user r with
  | Some _, Some room, Some uid =>
      let w := emit r (Server.leaveRoom room uid) w in
      let w := setCurrentRoom None w in
      let w := setUsers [] w in
      let w := destroy_all (peers r) w in
      let '(a, w) := new_peerMap ∅ w in
      let w := setPeers a w in
      let '(b, w) := new_streamMap ∅ w in
      setRemoteStreams b w
  | _, _, _ => w
  end.

(** [startCall], from the point where [getUserMedia] has answered: with a
    stream, or with a refusal.  What is thrown inside the [try] is logged
    and thrown again. *)
Definition startCall (r : Hooks) (granted : option MediaStream) (w : World) : World :=
  match granted with
  | None => w
  | Some stream =>
      let w := setLocalStream (Some stream) w in
      let w := setIsCallActive true w in
      world_of
        (forEach (λ remoteUser w,
                    match socket r with
                    | Some id =>
                        discard (createPeerConnection call_stack r
                                   (connection_id (Server.socketId remoteUser)) (Some id)
                                   (Some stream) None w)
                    | None => returned tt w
                    end)
           (users r) w)
  end.

Definition endCall (r : Hooks) (w : World) : World :=
  match localStream r with
  | None => w
  | Some ls =>
      let w := stop_tracks ls w in
      let w := setLocalStream None w in
      let w := setIsCallActive false w in
      let w := destroy_all (peers r) w in
      let '(a, w) := new_peerMap ∅ w in
      let w := setPeers a w in
      let '(b, w) := new_streamMap ∅ w in
      setRemoteStreams b w
  end.

(** *** Effects

    The clean-up returned by the last effect (lines 281-289, "Clean up on
    unmount"), with the values of the render [r] that set it up. *)
Definition cleanup_media (r : Hooks) (w : World) : World :=
  let w := match localStream r with
           | Some ls => stop_tracks ls w
           | None => w
           end in
  destroy_all (peers r) w.

(** After a listener returns React renders again when the state changed.  An
    effect whose dependencies changed ([Object.is] on each) first runs the
    clean-up of the previous render: for the last effect the dependencies are
    [[localStream, peers]].  The effect that installs the socket listeners
    runs again whenever a value these listeners read changed, so a listener
    always belongs to the latest render; [startCall] is memoised on
    [[socket, users]]. *)
Definition commit (r : Hooks) (w : World) : World :=
  let h := hooks w in
  let w := if decide (localStream r = localStream h ∧ peers r = peers h)
           then w else cleanup_media r w in
  if decide (socket r = socket h ∧ usersId r = usersId h)
  then w else with_startCall_env h w.

Inductive Input :=
| recv (ev : Server.ServerEvent)
| peer_event_signal (p : PeerRef) (data : SignalData)
| peer_event_stream (p : PeerRef) (remoteStream : MediaStream)
| peer_event_close (p : PeerRef)
| peer_event_error (p : PeerRef)
| call_joinRoom (roomId : string)
| call_leaveRoom
| call_startCall (granted : option MediaStream)
| call_endCall
| unmount.

(** An event of a peer runs the listener of that peer, if there is one. *)
Definition on_peer (p : PeerRef) (f : Peer → World → World) (w : World) : World :=
  match peerObjs w !! p with
  | Some peer => f peer w
  | None => w
  end.

Definition listener (i : Input) (r : Hooks) (w : World) : World :=
  match i with
  | recv (Server.roomUsers l) => on_roomUsers r l w
  | recv (Server.userJoinedRoom u) => on_userJoinedRoom r u w
  | recv (Server.userLeftRoom u) => on_userLeftRoom r u w
  | recv (Server.receiveOffer o from) => on_receiveOffer r o from w
  | recv (Server.receiveAnswer a from) => on_receiveAnswer r a from w
  | recv (Server.receiveIceCandidate c from) => on_receiveIceCandidate r c from w
  | peer_event_signal p data => on_peer p (λ peer, peer_signal peer data) w
  | peer_event_stream p s => on_peer p (λ peer, peer_stream peer s) w
  | peer_event_close p => on_peer p peer_close w
  | peer_event_error p => on_peer p peer_error w
  | call_joinRoom roomId => joinRoom r roomId w
  | call_leaveRoom => leaveRoom r w
  | call_startCall granted => startCall (startCall_env w) granted w
  | call_endCall => endCall r w
  | unmount => cleanup_media r w
  end.

Definition step (w : World) (i : Input) : World :=
  commit (hooks w) (listener i (hooks w) w).

Definition run (inputs : list Input) (w : World) : World := foldl step w inputs.

(** The provider once mounted and connected: the socket has its id, both
    maps are the empty [Map]s of [useState], and the identity has been sent
    if there is a user. *)
Definition mounted (user : option string) (id : string) : World :=
  let h := mkHooks user (Some id) 0 None 0 None false [] 0 in
  mkWorld h h [∅] [∅] [] ∅
    match user with Some uid => [Server.userJoined uid] | None => [] end.


End Client.

(** Two remote members, for the scenarios. *)
Definition member_A : Server.Member := Server.mkMember "A" "uA".
Definition member_B : Server.Member := Server.mkMember "B" "uB".

(** Scenarios.  On the server: two sockets connected; and [X] and [Y]
    connected with [X] in the room ["apt-42"].  On the client with socket id
    [X]: the list of the members of the room has arrived and [startCall]
    has been given local stream 7. *)
Definition two_sockets : Server.State :=
  Server.run [Server.Connection "A"; Server.Connection "B"] Server.init.

Definition X_in_room : Server.State :=
  Server.run [Server.Connection "X"; Server.Connection "Y";
              Server.Message "X" (Server.joinRoom "apt-42" "uX")] Server.init.

Definition in_call (l : list Server.Member) : Client.World :=
  Client.run [Client.recv (Server.roomUsers l); Client.call_startCall (Some 7)]
    (Client.mounted (Some "me") "X").

(** The client with socket id [X] has called [joinRoom "apt-42"], the
    server has replied with the given members, and [startCall] has been
    given local stream 7. *)
Definition in_room_call (l : list Server.Member) : Client.World :=
  Client.run [Client.call_joinRoom "apt-42"; Client.recv (Server.roomUsers l);
              Client.call_startCall (Some 7)]
    (Client.mounted (Some "me") "X").

(** What a step may make of a peer: it has the remote id it had, and it is
    not live unless it was. *)
Definition peer_after (p p' : Client.Peer) : Prop :=
  Client.remotePeerId p' = Client.remotePeerId p
  ∧ (Client.destroyed p' = false → Client.destroyed p = false).

(** A run in which every message comes from a socket that is connected when
    it sends it: socket.io hands a listener only the events of a live
    socket. *)
Fixpoint senders_connected (inputs : list Server.Input) (st : Server.State) : Prop :=
  match inputs with
  | [] => True
  | i :: rest =>
      match i with
      | Server.Message sid _ => sid ∈ Server.sockets st
      | _ => True
      end ∧ senders_connected rest (Server.step st i)
  end.

(** ** The origins the server accepts: [server/src/server.js], lines 21-104 *)

Module Cors.

(** [s.includes(pat)] *)
Fixpoint includes (s pat : string) : bool :=
  String.prefix pat s ||
  match s with
  | EmptyString => false
  | String _ s' => includes s' pat
  end.

(** [s.replace(c, '')] with a one-character string [c]: the first occurrence
    goes. *)
Fixpoint remove_first (c : Ascii.ascii) (s : string) : string :=
  match s with
  | EmptyString => EmptyString
  | String a s' => if Ascii.eqb a c then s' else String a (remove_first c s')
  end.

(** [s.split(c)] with a one-character string [c]. *)
Fixpoint split (c : Ascii.ascii) (s : string) : list string :=
  match s with
  | EmptyString => [EmptyString]
  | String a s' =>
      if Ascii.eqb a c then EmptyString :: split c s'
      else match split c s' with
           | x :: xs => String a x :: xs
           | [] => [String a EmptyString]
           end
  end.

(** [s.trim()], on ASCII text: tab, line feed, vertical tab, form feed,
    carriage return and space are white space. *)
Definition is_space (a : Ascii.ascii) : bool :=
  match Ascii.nat_of_ascii a with
  | 9 | 10 | 11 | 12 | 13 | 32 => true
  | _ => false
  end.

Fixpoint trim_start (s : string) : string :=
  match s with
  | String a s' => if is_space a then trim_start s' else s
  | EmptyString => EmptyString
  end.

Fixpoint trim_end (s : string) : string :=
  match s with
  | EmptyString => EmptyString
  | String a s' =>
      match trim_end s' with
      | EmptyString => if is_space a then EmptyString else String a EmptyString
      | t => String a t
      end
  end.

Definition trim (s : string) : string := trim_end (trim_start s).

(** The variables of [process.env] the file reads; a variable is unset or a
    string, and the empty string counts as unset in a condition. *)
Record Env := mkEnv {
  CLIENT_URL : option string;
  VERCEL_URL : option string;
  FRONTEND_URL : option string;
  NODE_ENV : option string
}.

Definition truthy (o : option string) : option string :=
  match o with
  | Some EmptyString | None => None
  | Some s => Some s
  end.

(** What the two [if]s and the [push]es add to a list of origins. *)
Definition pushed (env : Env) : list string :=
  match truthy (VERCEL_URL env) with
  | Some v => [String.append "https://" v]
  | None => []
  end ++
  match truthy (FRONTEND_URL env) with
  | Some f => [f]
  | None => []
  end.

(** [socketOrigins] (lines 22-35) *)
Definition socketOrigins (env : Env) : list string :=
  match truthy (CLIENT_URL env) with
  | Some urls => trim <$> split ","%char urls
  | None => ["http://localhost:5173"; "http://127.0.0.1:5173"]
  end ++ pushed env ++ ["https://doc-connect-24.vercel.app"].

(** [allowedOrigins] (lines 49-65) *)
Definition allowedOrigins (env : Env) : list string :=
  match truthy (CLIENT_URL env) with
  | Some urls => trim <$> split ","%char urls
  | None => ["http://localhost:5173"; "http://127.0.0.1:5173";
             "http://localhost:5174"; "http://127.0.0.1:5174"]
  end ++ pushed env ++ ["https://doc-connect-24.vercel.app"; "https://*.vercel.app"].

(** The test of one allowed entry (lines 78-85). *)
Definition matches (origin allowed : string) : bool :=
  if includes allowed "*"
  then includes origin (remove_first "*"%char allowed)
  else String.eqb origin allowed.

(** The [origin] function given to [cors] (lines 68-100): [callback(null,
    true)] or [callback(new Error('Not allowed by CORS'))]. *)
Inductive Verdict := allowed_origin | not_allowed_by_CORS.

Definition origin_check (env : Env) (origin : option string) : Verdict :=
  match truthy origin with
  | None => allowed_origin
  | Some o =>
      if bool_decide (NODE_ENV env = Some "development") then allowed_origin
      else if existsb (matches o) (allowedOrigins env) then allowed_origin
      else if includes o "vercel.app" then allowed_origin
      else not_allowed_by_CORS
  end.

(** The [origin] option given to socket.io (line 39): the list, or ["*"]. *)
Definition socket_cors_origin (env : Env) : option (list string) :=
  if bool_decide (NODE_ENV env = Some "production") then Some (socketOrigins env)
  else None.

End Cors.

(** ** Properties of the server *)

Section ServerFacts.
Import Server.

Implicit Types (st : State) (sid c r roomId : string) (l : list Member)
  (out : list Emission) (inputs : list Input).

(** Closes [x ∉ [a; b; ...]] for distinct literals. *)
Ltac not_among :=
  let H := fresh in
  intros H;
  repeat (apply elem_of_cons in H as [H|H]; [discriminate H|]);
  by apply elem_of_nil in H.

(** *** Lists of members *)

Lemma elem_of_others sid l m : m ∈ others sid l ↔ socketId m ≠ sid ∧ m ∈ l.
Proof. unfold others. by rewrite list_elem_of_filter. Qed.

Lemma others_ids_spec sid l c :
  c ∈ socketId <$> others sid l ↔ c ≠ sid ∧ c ∈ socketId <$> l.
Proof.
  rewrite !list_elem_of_fmap. split.
  - intros (m & -> & Hm). apply elem_of_others in Hm as [? ?]. eauto.
  - intros (Hne & m & -> & Hm). exists m. split; [done|]. by apply elem_of_others.
Qed.

Lemma others_not_member sid l : sid ∉ socketId <$> others sid l.
Proof. rewrite others_ids_spec. by intros [? _]. Qed.

Lemma others_id sid l : sid ∉ socketId <$> l → others sid l = l.
Proof.
  intros Hnin. unfold others. induction l as [|m l IH]; [done|].
  rewrite fmap_cons, not_elem_of_cons in Hnin. destruct Hnin as [Hne Hnin].
  rewrite filter_cons_True by done. by rewrite IH.
Qed.

Lemma others_app sid l1 l2 : others sid (l1 ++ l2) = others sid l1 ++ others sid l2.
Proof. unfold others. apply filter_app. Qed.

Lemma others_self sid u : others sid [mkMember sid u] = [].
Proof. unfold others. by rewrite filter_cons_False by (simpl; tauto). Qed.

Lemma NoDup_others sid l : NoDup (socketId <$> l) → NoDup (socketId <$> others sid l).
Proof.
  unfold others. induction l as [|m l IH]; [done|].
  rewrite fmap_cons, NoDup_cons. intros [Hm Hl].
  destruct (decide (socketId m ≠ sid)).
  - rewrite filter_cons_True by done. rewrite fmap_cons, NoDup_cons. split; [|auto].
    intros Hin. apply Hm. fold (others sid l) in Hin.
    apply others_ids_spec in Hin. tauto.
  - rewrite filter_cons_False by done. auto.
Qed.

Lemma find_user_None sid l : find_user sid l = None ↔ sid ∉ socketId <$> l.
Proof.
  unfold find_user. induction l as [|m l IH]; simpl.
  - split; [intros _; apply not_elem_of_nil | done].
  - rewrite not_elem_of_cons. case_bool_decide as E.
    + split; [done|]. intros [H _]. by destruct H.
    + split.
      * intros H. split; [congruence|]. by apply IH.
      * intros [_ H]. by apply IH.
Qed.

Lemma find_user_Some sid l m :
  find_user sid l = Some m → socketId m = sid ∧ m ∈ l.
Proof.
  unfold find_user. intros H. apply List.find_some in H as [Hin Hb].
  apply bool_decide_eq_true in Hb. split; [done|]. by apply list_elem_of_In.
Qed.

Lemma length_zero_nil {A} (x : list A) : length x = 0 ↔ x = [].
Proof. destruct x; simpl; split; (done || lia || congruence). Qed.

(** *** The registry after each listener *)

Lemma room_value_array st r l : room_value st r = array l ↔ rooms st !! r = Some l.
Proof.
  unfold room_value. destruct (rooms st !! r); [|destruct (inherited r)]; naive_solver.
Qed.

Lemma room_value_inherited st r :
  room_value st r = inherited_value ↔ rooms st !! r = None ∧ inherited r = true.
Proof.
  unfold room_value. destruct (rooms st !! r); [|destruct (inherited r)]; naive_solver.
Qed.

Lemma rooms_on_joinRoom sid r u st :
  rooms (on_joinRoom sid r u st).1 =
    if decide (room_value st r = inherited_value) then rooms st
    else <[r := members st r ++ [mkMember sid u]]> (rooms st).
Proof.
  unfold on_joinRoom, members, room_value. simpl.
  destruct (rooms st !! r) as [l|] eqn:E; simpl.
  - by rewrite E.
  - destruct (inherited r); simpl; [done|].
    rewrite lookup_insert_eq. simpl. by rewrite insert_insert_eq.
Qed.

Lemma room_sockets_join sid r st r' :
  room_sockets (socket_join sid r st) r' =
    if decide (r' = r) then {[sid]} ∪ room_sockets st r else room_sockets st r'.
Proof.
  unfold room_sockets at 1. unfold socket_join. simpl.
  case_decide as E.
  - subst. by rewrite lookup_insert_eq.
  - by rewrite lookup_insert_ne.
Qed.

Lemma without_spec sid (X : gset string) :
  default ∅ (without sid X) = X ∖ {[sid]}.
Proof. unfold without. by case_decide as E; simpl; [rewrite E|]. Qed.

Lemma room_sockets_leave sid r st r' :
  room_sockets (socket_leave sid r st) r' =
    if decide (r' = r) then room_sockets st r ∖ {[sid]} else room_sockets st r'.
Proof.
  unfold socket_leave.
  destruct (sio_rooms st !! r) as [X|] eqn:E.
  - unfold room_sockets at 1. simpl. pose proof (without_spec sid X) as HX.
    destruct (without sid X) as [X'|]; simpl in HX; case_decide as E'; subst.
    + rewrite lookup_insert_eq. simpl. unfold room_sockets. by rewrite E.
    + by rewrite lookup_insert_ne.
    + rewrite lookup_delete_eq. simpl. unfold room_sockets. by rewrite E.
    + by rewrite lookup_delete_ne.
  - case_decide; [|done]. subst. unfold room_sockets. rewrite E. simpl.
    by rewrite empty_difference_L.
Qed.

Lemma room_sockets_leave_all sid st r :
  room_sockets (socket_leave_all sid st) r = room_sockets st r ∖ {[sid]}.
Proof.
  unfold room_sockets, socket_leave_all. simpl. rewrite lookup_omap.
  destruct (sio_rooms st !! r) as [X|]; simpl.
  - apply without_spec.
  - by rewrite empty_difference_L.
Qed.

Lemma rooms_on_leaveRoom sid r u st r' :
  rooms (on_leaveRoom sid r u st).1 !! r' =
    if decide (r' = r)
    then l ← rooms st !! r; if bool_decide (length (others sid l) = 0) then None
                            else Some (others sid l)
    else rooms st !! r'.
Proof.
  unfold on_leaveRoom, room_value.
  assert (∀ x, rooms (socket_leave sid r x) = rooms x) as Hr.
  { intros x. unfold socket_leave. by destruct (sio_rooms x !! r). }
  destruct (rooms st !! r) as [l|] eqn:E; simpl.
  - case_bool_decide; simpl; rewrite Hr; simpl; case_decide; subst;
      by rewrite ?lookup_delete_eq, ?lookup_delete_ne, ?lookup_insert_eq, ?lookup_insert_ne.
  - destruct (inherited r); simpl; rewrite ?Hr; case_decide; subst; by rewrite ?E.
Qed.

Lemma cleanup_room_spec st sid (acc : gmap string (list Member) * list Emission) k :
  (∀ r, (cleanup_room st sid acc k).1 !! r =
          if decide (r = k) then room_after sid (acc.1 !! k) else acc.1 !! r)
  ∧ (cleanup_room st sid acc k).2 = acc.2 ++ option_list (left_event st sid k (acc.1 !! k)).
Proof.
  unfold cleanup_room, room_after, left_event.
  destruct (acc.1 !! k) as [l|] eqn:E; simpl.
  - destruct (find_user sid l) as [m|]; simpl.
    + case_bool_decide; simpl; (split; [|done]); intros r; case_decide; subst;
        by rewrite ?lookup_delete_eq, ?lookup_delete_ne, ?lookup_insert_eq, ?lookup_insert_ne.
    + rewrite app_nil_r. split; [|done]. intros r. case_decide; by subst.
  - rewrite app_nil_r. split; [|done]. intros r. case_decide; by subst.
Qed.

Lemma cleanup_fold st sid ks :
  ∀ acc : gmap string (list Member) * list Emission, NoDup ks →
    (∀ r, (foldl (cleanup_room st sid) acc ks).1 !! r =
            if decide (r ∈ ks) then room_after sid (acc.1 !! r) else acc.1 !! r)
    ∧ (foldl (cleanup_room st sid) acc ks).2 =
        acc.2 ++ omap (λ r, left_event st sid r (acc.1 !! r)) ks.
Proof.
  induction ks as [|k ks IH]; intros acc Hnd.
  - split; [|by rewrite app_nil_r]. intros r.
    by rewrite decide_False by apply not_elem_of_nil.
  - apply NoDup_cons in Hnd as [Hk Hnd]. cbn [foldl].
    destruct (cleanup_room_spec st sid acc k) as [H1 H2].
    destruct (IH (cleanup_room st sid acc k) Hnd) as [IH1 IH2]. split.
    + intros r. rewrite IH1, !H1.
      destruct (decide (r = k)) as [->|Hne].
      * rewrite decide_False by done. by rewrite decide_True by left.
      * destruct (decide (r ∈ ks)).
        -- by rewrite decide_True by (by right).
        -- rewrite decide_False; [done|]. rewrite elem_of_cons. tauto.
    + rewrite IH2, H2, <- app_assoc. f_equal.
      assert (omap (λ r, left_event st sid r ((cleanup_room st sid acc k).1 !! r)) ks
              = omap (λ r, left_event st sid r (acc.1 !! r)) ks) as ->.
      { clear IH IH1 IH2 Hnd. induction ks as [|x ks IHks]; [done|].
        apply not_elem_of_cons in Hk as [Hx Hk]. simpl.
        rewrite H1, decide_False by done.
        destruct (left_event st sid x (acc.1 !! x)); [f_equal|]; exact (IHks Hk). }
      simpl. by destruct (left_event st sid k (acc.1 !! k)).
Qed.

Lemma keys_spec (m : gmap string (list Member)) r : r ∈ keys m ↔ is_Some (m !! r).
Proof.
  unfold keys. rewrite list_elem_of_fmap. split.
  - intros ([k l] & -> & H). apply elem_of_map_to_list in H. eauto.
  - intros [l H]. exists (r, l). split; [done|]. by apply elem_of_map_to_list.
Qed.

Lemma cleanup_rooms_spec sid st :
  (∀ r, rooms (cleanup_rooms sid st).1 !! r = room_after sid (rooms st !! r))
  ∧ (cleanup_rooms sid st).2 = omap (λ r, left_event st sid r (rooms st !! r)) (keys (rooms st))
  ∧ users (cleanup_rooms sid st).1 = users st
  ∧ sio_rooms (cleanup_rooms sid st).1 = sio_rooms st.
Proof.
  unfold cleanup_rooms.
  destruct (cleanup_fold st sid (keys (rooms st)) (rooms st, [])) as [H1 H2].
  { apply NoDup_fst_map_to_list. }
  destruct (foldl _ _ _) as [rs out]. simpl in *. repeat split; [|done].
  intros r. rewrite H1. case_decide as E; [done|].
  rewrite keys_spec in E. destruct (rooms st !! r) eqn:E'; [|done].
  exfalso. eauto.
Qed.

Lemma rooms_on_disconnect sid st r :
  rooms (on_disconnect sid st).1 !! r = room_after sid (rooms st !! r).
Proof.
  unfold on_disconnect.
  destruct (cleanup_rooms_spec sid (socket_leave_all sid st)) as (H & _).
  destruct (cleanup_rooms _ _) as [st' out]. simpl in *. apply H.
Qed.

(** *** Members and socket.io rooms after one input *)

Lemma members_step st i r :
  members (step st i) r =
    match i with
    | Message sid (joinRoom r' u) =>
        if decide (r = r' ∧ room_value st r' ≠ inherited_value)
        then members st r ++ [mkMember sid u] else members st r
    | Message sid (leaveRoom r' _) =>
        if decide (r = r') then others sid (members st r) else members st r
    | Disconnect sid => others sid (members st r)
    | _ => members st r
    end.
Proof.
  unfold step. destruct i as [sid|sid [u|r' u|o t f|a t f|c t f|r' u]|sid]; try done.
  - unfold members at 1. cbn [handle]. rewrite rooms_on_joinRoom.
    destruct (decide (room_value st r' = inherited_value)) as [Hi|Hi].
    + by rewrite decide_False by tauto.
    + destruct (decide (r = r')) as [->|Hne].
      * rewrite decide_True by done. by rewrite lookup_insert_eq.
      * rewrite decide_False by tauto. by rewrite lookup_insert_ne.
  - unfold members at 1. cbn [handle]. rewrite rooms_on_leaveRoom.
    case_decide; [subst|done]. unfold members.
    destruct (rooms st !! r') as [l|]; simpl; [|done].
    case_bool_decide as E; [|done]. by apply length_zero_nil in E.
  - unfold members at 1. cbn [handle]. rewrite rooms_on_disconnect.
    unfold members, room_after. destruct (rooms st !! r) as [l|]; simpl; [|done].
    destruct (find_user sid l) as [m|] eqn:Ef; simpl.
    + case_bool_decide as E; [|done]. by apply length_zero_nil in E.
    + apply find_user_None in Ef. by rewrite others_id.
Qed.

Lemma sio_rooms_cleanup sid st :
  sio_rooms (on_disconnect sid st).1 = sio_rooms (socket_leave_all sid st).
Proof.
  unfold on_disconnect.
  destruct (cleanup_rooms_spec sid (socket_leave_all sid st)) as (_ & _ & _ & H).
  by destruct (cleanup_rooms _ _).
Qed.

Lemma room_sockets_step st i r :
  room_sockets (step st i) r =
    match i with
    | Connection sid =>
        if decide (r = sid) then {[sid]} ∪ room_sockets st r else room_sockets st r
    | Message sid (joinRoom r' _) =>
        if decide (r = r') then {[sid]} ∪ room_sockets st r else room_sockets st r
    | Message sid (leaveRoom r' _) =>
        if decide (r = r' ∧ room_value st r' ≠ inherited_value)
        then room_sockets st r ∖ {[sid]} else room_sockets st r
    | Disconnect sid => room_sockets st r ∖ {[sid]}
    | _ => room_sockets st r
    end.
Proof.
  unfold step. destruct i as [sid|sid [u|r' u|o t f|a t f|c t f|r' u]|sid];
    cbn [handle]; try done.
  - cbn [handle]. unfold on_connection. cbn [fst]. rewrite room_sockets_join. by case_decide; subst.
  - assert (room_sockets (on_joinRoom sid r' u st).1 r
            = room_sockets (socket_join sid r' st) r) as ->.
    { unfold on_joinRoom, room_sockets, room_value. simpl.
      by destruct (rooms st !! r'); [|destruct (inherited r')]. }
    rewrite room_sockets_join. by case_decide; subst.
  - destruct (decide (room_value st r' = inherited_value)) as [Hi|Hi].
    { rewrite decide_False by tauto. unfold on_leaveRoom. by rewrite Hi. }
    assert (∃ x, (on_leaveRoom sid r' u st).1 = socket_leave sid r' x
                 ∧ sio_rooms x = sio_rooms st) as (x & -> & Hx).
    { unfold on_leaveRoom. destruct (room_value st r'); [case_bool_decide| |]; eauto.
      done. }
    rewrite room_sockets_leave. unfold room_sockets. rewrite Hx.
    destruct (decide (r = r')) as [->|Hne].
    + by rewrite decide_True by done.
    + by rewrite decide_False by tauto.
  - cbn [handle]. unfold room_sockets at 1. rewrite sio_rooms_cleanup.
    apply room_sockets_leave_all.
Qed.

(** *** Invariants along a run *)

Lemma rooms_nonempty_iff st :
  rooms_nonempty st ↔ ∀ r, is_Some (rooms st !! r) ↔ members st r ≠ [].
Proof.
  unfold rooms_nonempty, members. split.
  - intros H r. destruct (rooms st !! r) as [l|] eqn:E; simpl.
    + split; [intros _; eauto | eauto].
    + split; [by intros [? ?] | done].
  - intros H r l E. specialize (H r). rewrite E in H. simpl in H. apply H. eauto.
Qed.

Lemma rooms_nonempty_step st i : rooms_nonempty st → rooms_nonempty (step st i).
Proof.
  intros Hst r l. unfold step.
  destruct i as [sid|sid [u|r' u|o t f|a t f|c t f|r' u]|sid]; try apply Hst.
  - cbn [handle]. rewrite rooms_on_joinRoom. case_decide; [apply Hst|].
    destruct (decide (r = r')) as [->|Hne].
    + rewrite lookup_insert_eq. intros [= <-]. by destruct (members st r').
    + rewrite lookup_insert_ne by done. apply Hst.
  - cbn [handle]. rewrite rooms_on_leaveRoom. case_decide; [subst|apply Hst].
    destruct (rooms st !! r') as [l'|]; simpl; [|done].
    case_bool_decide as E; [done|]. intros [= <-]. by rewrite <- length_zero_nil.
  - cbn [handle]. rewrite rooms_on_disconnect. unfold room_after.
    destruct (rooms st !! r) as [l'|] eqn:El; simpl; [|done].
    destruct (find_user sid l').
    + case_bool_decide as E; [done|]. intros [= <-]. by rewrite <- length_zero_nil.
    + intros [= <-]. by eapply Hst.
Qed.

Lemma rooms_nodup_step st i :
  match i with
  | Message sid (joinRoom r _) => sid ∉ member_ids st r
  | _ => True
  end →
  rooms_nodup st → rooms_nodup (step st i).
Proof.
  intros Hi Hst r. unfold member_ids. rewrite members_step.
  destruct i as [sid|sid [u|r' u|o t f|a t f|c t f|r' u]|sid]; try apply Hst.
  - case_decide as E; [destruct E as [-> _]|apply Hst].
    rewrite fmap_app. apply NoDup_app. split; [apply Hst|]. split.
    + intros x Hx. simpl. rewrite list_elem_of_singleton. by intros ->.
    + apply NoDup_singleton.
  - case_decide; [|apply Hst]. apply NoDup_others, Hst.
  - apply NoDup_others, Hst.
Qed.

Lemma members_joined_step st i : members_joined st → members_joined (step st i).
Proof.
  intros Hst r m. rewrite members_step, room_sockets_step.
  destruct i as [sid|sid [u|r' u|o t f|a t f|c t f|r' u]|sid]; try apply Hst.
  - intros Hm. apply Hst in Hm. case_decide; set_solver.
  - destruct (decide (r = r')) as [->|Hne].
    + case_decide as E.
      * rewrite elem_of_app, list_elem_of_singleton.
        intros [Hm| ->]; [apply Hst in Hm|simpl]; set_solver.
      * intros Hm. apply Hst in Hm. set_solver.
    + rewrite decide_False by tauto. apply Hst.
  - destruct (decide (r = r')) as [->|Hne].
    + rewrite elem_of_others. intros [Hne Hm]. pose proof Hm as Hm'. apply Hst in Hm.
      case_decide; [set_solver|done].
    + rewrite decide_False by tauto. apply Hst.
  - rewrite elem_of_others. intros [Hne Hm]. apply Hst in Hm. set_solver.
Qed.

Lemma rooms_nonempty_run inputs st : rooms_nonempty st → rooms_nonempty (run inputs st).
Proof.
  revert st. induction inputs as [|i inputs IH]; intros st H; [done|].
  simpl. by apply IH, rooms_nonempty_step.
Qed.

Lemma rooms_nodup_run inputs st :
  joins_fresh inputs st → rooms_nodup st → rooms_nodup (run inputs st).
Proof.
  revert st. induction inputs as [|i inputs IH]; intros st Hf H; [done|].
  destruct Hf as [Hi Hf]. simpl. apply IH; [done|]. by apply rooms_nodup_step.
Qed.

Lemma members_joined_run inputs st : members_joined st → members_joined (run inputs st).
Proof.
  revert st. induction inputs as [|i inputs IH]; intros st H; [done|].
  simpl. by apply IH, members_joined_step.
Qed.

Lemma init_nonempty : rooms_nonempty init.
Proof. intros r l. unfold init. simpl. by rewrite lookup_empty. Qed.

Lemma init_nodup : rooms_nodup init.
Proof.
  intros r. unfold member_ids, members, init. simpl. rewrite lookup_empty.
  apply NoDup_nil_2.
Qed.

Lemma init_members_joined : members_joined init.
Proof.
  intros r m. unfold members, init. simpl. rewrite lookup_empty. simpl.
  intros H. by apply elem_of_nil in H.
Qed.

(** *** The room registry *)

(** C1, as amended: along every run from the empty registry a room id is in
    the registry exactly when its member list is not empty; and when no
    socket joins a room it is a member of already, no member list has two
    entries with the same connection id. *)
Theorem C1_registry_invariant inputs :
  (∀ r, is_Some (rooms (run inputs init) !! r) ↔ members (run inputs init) r ≠ [])
  ∧ (joins_fresh inputs init → ∀ r, NoDup (member_ids (run inputs init) r)).
Proof.
  split.
  - apply rooms_nonempty_iff, rooms_nonempty_run, init_nonempty.
  - intros Hf. apply rooms_nodup_run; [done|apply init_nodup].
Qed.

Lemma C1_registry_invariant_witness :
  NoDup (member_ids
           (run [Connection "X"; Connection "Y";
                 Message "X" (joinRoom "apt-42" "uX");
                 Message "Y" (joinRoom "apt-42" "uY");
                 Message "X" (leaveRoom "apt-42" "uX");
                 Message "X" (joinRoom "apt-42" "uX");
                 Disconnect "Y"] init) "apt-42").
Proof.
  apply (proj2 (C1_registry_invariant _)).
  repeat split; vm_compute; not_among.
Defined.

(** C1, as stated, fails: the same socket joining a room twice is in its
    member list twice. *)
Lemma C1_rejoin_duplicates :
  ¬ NoDup (member_ids
             (run [Connection "X";
                   Message "X" (joinRoom "apt-42" "uX");
                   Message "X" (joinRoom "apt-42" "uX")] init) "apt-42").
Proof.
  vm_compute. intros H. apply NoDup_cons in H as [H _]. apply H. left.
Qed.

(** *** Joining *)

Lemma emit_room_except_ext st st' sid r ev :
  sio_rooms st' = sio_rooms st → emit_room_except st' sid r ev = emit_room_except st sid r ev.
Proof. intros H. unfold emit_room_except, room_sockets. by rewrite H. Qed.

Lemma out_on_joinRoom sid r u st :
  (on_joinRoom sid r u st).2
  = if decide (room_value st r = inherited_value) then []
    else [emit_sender sid (roomUsers (others sid (members st r)));
          emit_room_except (socket_join sid r st) sid r (userJoinedRoom (mkMember sid u))].
Proof.
  unfold on_joinRoom, members, room_value. cbn [snd].
  change (rooms (socket_join sid r st)) with (rooms st).
  destruct (rooms st !! r) as [l|] eqn:E; simpl.
  - rewrite E. simpl. rewrite lookup_insert_eq. simpl.
    rewrite others_app, others_self, app_nil_r.
    by rewrite (emit_room_except_ext (socket_join sid r st)).
  - destruct (inherited r); simpl; [done|].
    rewrite !lookup_insert_eq. simpl. rewrite (others_self sid u).
    by rewrite (emit_room_except_ext (socket_join sid r st)).
Qed.

(** What each socket receives from a [joinRoom] that does not throw. *)
Lemma received_join c sid r u st :
  room_value st r ≠ inherited_value →
  received c (on_joinRoom sid r u st).2
  = (if decide (c = sid) then [roomUsers (others sid (members st r))] else [])
    ++ (if decide (c ∈ ({[sid]} ∪ room_sockets st r)
                       ∖ room_sockets (socket_join sid r st) sid)
        then [userJoinedRoom (mkMember sid u)] else []).
Proof.
  intros Hv. rewrite out_on_joinRoom, decide_False by done. unfold received.
  rewrite !filter_cons, filter_nil. cbn [em_recipients emit_sender emit_room_except].
  rewrite (room_sockets_join sid r st r), (decide_True (P := r = r)) by done.
  destruct (decide (c ∈ [sid])) as [Hc|Hc]; rewrite list_elem_of_singleton in Hc;
    (destruct (decide (c ∈ elements _)) as [He|He]; rewrite elem_of_elements in He);
    rewrite ?(decide_True (P := c = sid)), ?(decide_False (P := c = sid)) by done;
    rewrite ?(decide_True (P := c ∈ _ ∖ _)), ?(decide_False (P := c ∈ _ ∖ _)) by done;
    done.
Qed.

Lemma received_join_sender sid r u st :
  room_value st r ≠ inherited_value → sid ∈ room_sockets st sid →
  received sid (on_joinRoom sid r u st).2 = [roomUsers (others sid (members st r))].
Proof.
  intros Hv Hc. rewrite received_join, decide_True by done.
  rewrite decide_False; [done|]. intros [_ H]%elem_of_difference. apply H.
  rewrite room_sockets_join. case_decide; [subst|done]. apply elem_of_union. by right.
Qed.

(** C3, as amended.  In every state a run from the empty registry reaches:
    when the room id names a property that [rooms] inherits, the listener
    throws, nothing is sent and the registry is as before.  Otherwise a
    joiner that sits in the socket.io room of its own id receives one
    [roomUsers] reply, the members of the room before the join without its
    own entries (so all of them when it was not a member); and a member
    before the join other than the joiner receives exactly one
    [userJoinedRoom] with the joiner's connection id and user id when it
    is not in the socket.io room named by the joiner's id, and nothing when
    it is.  A joiner that has left the room of its own id receives its own
    [userJoinedRoom] after the reply. *)
Theorem C3_join_views inputs c r u :
  (room_value (run inputs init) r = inherited_value →
     (handle (Message c (joinRoom r u)) (run inputs init)).2 = []
     ∧ rooms (step (run inputs init) (Message c (joinRoom r u))) = rooms (run inputs init))
  ∧ (room_value (run inputs init) r ≠ inherited_value →
     (c ∈ room_sockets (run inputs init) c →
        received c (handle (Message c (joinRoom r u)) (run inputs init)).2
        = [roomUsers (others c (members (run inputs init) r))])
     ∧ (c ∈ room_sockets (run inputs init) c → c ∉ member_ids (run inputs init) r →
          received c (handle (Message c (joinRoom r u)) (run inputs init)).2
          = [roomUsers (members (run inputs init) r)])
     ∧ (∀ m, m ∈ members (run inputs init) r → socketId m ≠ c →
          socketId m ∉ room_sockets (run inputs init) c →
          received (socketId m) (handle (Message c (joinRoom r u)) (run inputs init)).2
          = [userJoinedRoom (mkMember c u)])
     ∧ (∀ m, m ∈ members (run inputs init) r → socketId m ≠ c →
          socketId m ∈ room_sockets (run inputs init) c →
          received (socketId m) (handle (Message c (joinRoom r u)) (run inputs init)).2
          = [])
     ∧ (c ∉ room_sockets (run inputs init) c → r ≠ c →
          received c (handle (Message c (joinRoom r u)) (run inputs init)).2
          = [roomUsers (others c (members (run inputs init) r));
             userJoinedRoom (mkMember c u)])).
Proof.
  set (st := run inputs init).
  assert (∀ x, x ∈ room_sockets st c → x ∈ room_sockets (socket_join c r st) c) as Hin.
  { intros x Hx. rewrite room_sockets_join. case_decide; [subst|done].
    apply elem_of_union. by right. }
  assert (∀ x, x ≠ c → x ∈ room_sockets (socket_join c r st) c → x ∈ room_sockets st c)
    as Hout.
  { intros x Hne. rewrite room_sockets_join. case_decide; [subst|done].
    rewrite elem_of_union, elem_of_singleton. tauto. }
  assert (room_value st r ≠ inherited_value → c ∈ room_sockets st c →
          received c (on_joinRoom c r u st).2 = [roomUsers (others c (members st r))])
    as Hreply.
  { intros Hv Hc. rewrite received_join, decide_True by done.
    rewrite decide_False; [done|]. intros [_ H]%elem_of_difference. auto. }
  cbn [handle]. split.
  - intros Hv. split.
    + rewrite out_on_joinRoom. by rewrite decide_True.
    + unfold step. cbn [handle]. rewrite rooms_on_joinRoom. by rewrite decide_True.
  - intros Hv. split; [by apply Hreply|]. split; [|split; [|split]].
    + intros Hc Hnin. rewrite Hreply by done. by rewrite others_id.
    + intros m Hm Hne Hnin. rewrite received_join, decide_False by done.
      rewrite decide_True; [done|]. apply elem_of_difference. split.
      * apply elem_of_union. right.
        by apply (members_joined_run inputs init init_members_joined).
      * intros H. by apply Hnin, Hout.
    + intros m Hm Hne Hi. rewrite received_join, decide_False by done.
      rewrite decide_False; [done|]. intros [_ H]%elem_of_difference. auto.
    + intros Hc Hne. rewrite received_join, decide_True by done.
      rewrite decide_True; [done|]. apply elem_of_difference. split.
      * apply elem_of_union. left. by apply elem_of_singleton.
      * rewrite room_sockets_join. by rewrite decide_False by done.
Qed.

Lemma C3_join_views_witness :
  (received "X" (handle (Message "Y" (joinRoom "apt-42" "uY")) X_in_room).2
   = [userJoinedRoom (mkMember "Y" "uY")]
   ∧ received "Y" (handle (Message "Y" (joinRoom "apt-42" "uY")) X_in_room).2
     = [roomUsers (members X_in_room "apt-42")])
  ∧ (handle (Message "Y" (joinRoom "constructor" "uY")) X_in_room).2 = []
  ∧ received "X"
      (handle (Message "Y" (joinRoom "apt-42" "uY"))
         (run [Connection "X"; Connection "Y"; Message "X" (joinRoom "Y" "uX");
               Message "X" (joinRoom "apt-42" "uX")] init)).2 = [].
Proof.
  split; [|split].
  - pose proof (C3_join_views
                  [Connection "X"; Connection "Y"; Message "X" (joinRoom "apt-42" "uX")]
                  "Y" "apt-42" "uY") as (_ & H).
    destruct H as (_ & Hreply & Hnote & _); [by vm_compute|]. split.
    + apply (Hnote (mkMember "X" "uX")); [vm_compute; left | vm_compute; congruence|].
      vm_compute. intros H. discriminate H.
    + apply Hreply; [by vm_compute|]. vm_compute. not_among.
  - apply (C3_join_views
             [Connection "X"; Connection "Y"; Message "X" (joinRoom "apt-42" "uX")]
             "Y" "constructor" "uY"). by vm_compute.
  - pose proof (C3_join_views
                  [Connection "X"; Connection "Y"; Message "X" (joinRoom "Y" "uX");
                   Message "X" (joinRoom "apt-42" "uX")]
                  "Y" "apt-42" "uY") as (_ & H).
    destruct H as (_ & _ & _ & Hnone & _); [by vm_compute|].
    apply (Hnone (mkMember "X" "uX")); [vm_compute; left | vm_compute; congruence|].
    by vm_compute.
Defined.

(** C3, as stated, fails: a socket that joins a room it is a member of
    already is not shown its own entry, and is not notified. *)
Lemma C3_rejoin_reply :
  members X_in_room "apt-42" = [mkMember "X" "uX"]
  ∧ received "X" (handle (Message "X" (joinRoom "apt-42" "uX")) X_in_room).2
    = [roomUsers []].
Proof. by vm_compute. Qed.

(** *** Leaving *)

(** On a registry without empty rooms, a [leaveRoom] from a socket that is
    not a member leaves the registry as it is. *)
Lemma leaveRoom_non_member_registry sid r u st :
  rooms_nonempty st → sid ∉ member_ids st r →
  rooms (on_leaveRoom sid r u st).1 = rooms st.
Proof.
  intros Hne Hnin. apply map_eq. intros r'. rewrite rooms_on_leaveRoom.
  case_decide as Er; [rewrite Er; clear Er|done]. unfold member_ids, members in Hnin.
  destruct (rooms st !! r) as [l|] eqn:E; simpl in *; [|done].
  rewrite (others_id sid l) by done. case_bool_decide as El; [|done].
  apply length_zero_nil in El. by apply Hne in E.
Qed.

Lemma out_on_leaveRoom sid r u st :
  (on_leaveRoom sid r u st).2
  = if decide (others sid (members st r) = []) then []
    else [emit_room_except st sid r (userLeftRoom (mkMember sid u))].
Proof.
  unfold on_leaveRoom, members, room_value.
  destruct (rooms st !! r) as [l|]; simpl.
  - case_bool_decide as El; rewrite length_zero_nil in El; simpl.
    + by rewrite decide_True.
    + by rewrite decide_False.
  - by destruct (inherited r).
Qed.

(** What each socket receives from a [leaveRoom]: the notification goes out
    when entries of other sockets remain, to the sockets of the room that
    are not in the room named by the sender's id. *)
Lemma received_leave c sid r u st :
  received c (on_leaveRoom sid r u st).2
  = if decide (others sid (members st r) ≠ []
               ∧ c ∈ room_sockets st r ∖ room_sockets st sid)
    then [userLeftRoom (mkMember sid u)] else [].
Proof.
  rewrite out_on_leaveRoom. unfold received.
  destruct (decide (others sid (members st r) = [])) as [E|E].
  - by rewrite decide_False by tauto.
  - rewrite filter_cons, filter_nil. cbn [em_recipients emit_room_except].
    destruct (decide (c ∈ elements _)) as [He|He]; rewrite elem_of_elements in He.
    + by rewrite decide_True.
    + by rewrite decide_False by tauto.
Qed.

(** C4 at the failing input: [Y] is no member of the room [X] is in; its
    [leaveRoom] leaves the registry unchanged, and [X] receives a
    [userLeftRoom] for [Y]. *)
Theorem C4_leave_by_non_member_notifies :
  ("Y" ∉ member_ids X_in_room "apt-42")
  ∧ rooms (handle (Message "Y" (leaveRoom "apt-42" "uY")) X_in_room).1 = rooms X_in_room
  ∧ received "X" (handle (Message "Y" (leaveRoom "apt-42" "uY")) X_in_room).2
    = [userLeftRoom (mkMember "Y" "uY")].
Proof.
  split; [|by vm_compute].
  vm_compute. not_among.
Qed.

(** *** Disconnecting *)

Lemma left_event_Some st sid k o e :
  left_event st sid k o = Some e ↔
  ∃ l m, o = Some l ∧ find_user sid l = Some m
         ∧ e = emit_room_except st sid k (userLeftRoom m).
Proof.
  unfold left_event. destruct o as [l|]; simpl.
  - destruct (find_user sid l) as [m|] eqn:E; simpl.
    + destruct (find_user_Some _ _ _ E) as [Hs _]. destruct m as [s u].
      simpl in Hs. subst s. simpl. split.
      * intros [= <-]. eauto.
      * intros (l0 & m0 & [= <-] & Hm & ->). rewrite E in Hm. by injection Hm as <-.
    + split; [done|]. intros (l0 & m0 & [= <-] & Hm & _). by rewrite E in Hm.
  - split; [done|]. by intros (l0 & m0 & ? & _).
Qed.

Lemma left_event_target st sid k o e :
  left_event st sid k o = Some e → em_target e = ToRoomExceptSender k.
Proof. rewrite left_event_Some. by intros (l & m & _ & _ & ->). Qed.

Lemma filter_target_left_events st sid (m : gmap string (list Member)) ks r :
  NoDup ks →
  filter (λ e, em_target e = ToRoomExceptSender r)
    (omap (λ k, left_event st sid k (m !! k)) ks)
  = if decide (r ∈ ks) then option_list (left_event st sid r (m !! r)) else [].
Proof.
  induction ks as [|k ks IH]; intros Hnd.
  - by rewrite decide_False by apply not_elem_of_nil.
  - apply NoDup_cons in Hnd as [Hk Hnd]. specialize (IH Hnd).
    change (omap (λ k, left_event st sid k (m !! k)) (k :: ks))
      with (match left_event st sid k (m !! k) with
            | Some e => e :: omap (λ k, left_event st sid k (m !! k)) ks
            | None => omap (λ k, left_event st sid k (m !! k)) ks
            end).
    destruct (decide (r = k)) as [->|Hne].
    + rewrite decide_True by left. rewrite decide_False in IH by done.
      destruct (left_event st sid k (m !! k)) as [e|] eqn:E; [|done].
      rewrite filter_cons_True by (by eapply left_event_target). by rewrite IH.
    + assert (filter (λ e, em_target e = ToRoomExceptSender r)
                (omap (λ k, left_event st sid k (m !! k)) ks)
              = if decide (r ∈ k :: ks)
                then option_list (left_event st sid r (m !! r)) else []) as IH'.
      { rewrite IH. destruct (decide (r ∈ ks)).
        - by rewrite decide_True by (by right).
        - rewrite decide_False; [done|]. rewrite elem_of_cons. tauto. }
      destruct (left_event st sid k (m !! k)) as [e|] eqn:E; [|done].
      rewrite filter_cons_False; [done|].
      apply left_event_target in E. rewrite E. congruence.
Qed.

Lemma out_on_disconnect sid st :
  (on_disconnect sid st).2
  = omap (λ r, left_event (socket_leave_all sid st) sid r (rooms st !! r)) (keys (rooms st)).
Proof.
  unfold on_disconnect.
  destruct (cleanup_rooms_spec sid (socket_leave_all sid st)) as (_ & H & _).
  by destruct (cleanup_rooms _ _).
Qed.

Lemma find_user_members sid st r :
  sid ∈ member_ids st r →
  ∃ l m, rooms st !! r = Some l ∧ members st r = l ∧ find_user sid l = Some m.
Proof.
  unfold member_ids, members. intros H.
  destruct (rooms st !! r) as [l|]; simpl in *; [|by apply elem_of_nil in H].
  destruct (find_user sid l) as [m|] eqn:E; [eauto|].
  by apply find_user_None in E.
Qed.

(** C5: the ['disconnect'] listener takes [c] out of every room
    (afterwards no member list has [c]); for each room that had [c] it makes
    exactly one [userLeftRoom] emission, addressed to that room except the
    room named [c] (so to the sockets of the room other than [c] that are
    not in the room named [c]), and for the other rooms none; a room left
    empty is deleted; the clean-up of the registry leaves [users] as it
    was, and when the listener is done [users] has lost the entry of [c] and
    no other; and when no room has [c] the registry stays as it is and
    nothing is emitted. *)
Theorem C5_disconnect_cleanup st c :
  (∀ r, c ∉ member_ids (step st (Disconnect c)) r)
  ∧ (∀ r, members (step st (Disconnect c)) r = others c (members st r))
  ∧ (∀ r, c ∈ member_ids st r → others c (members st r) = [] →
       rooms (step st (Disconnect c)) !! r = None)
  ∧ (∀ r, c ∈ member_ids st r →
       ∃ m, find_user c (members st r) = Some m
            ∧ filter (λ e, em_target e = ToRoomExceptSender r) (handle (Disconnect c) st).2
              = [mkEmission (ToRoomExceptSender r) (userLeftRoom m)
                   (elements (room_sockets st r ∖ ({[c]} ∪ room_sockets st c)))])
  ∧ (∀ r, c ∉ member_ids st r →
       filter (λ e, em_target e = ToRoomExceptSender r) (handle (Disconnect c) st).2 = [])
  ∧ (∀ e, e ∈ (handle (Disconnect c) st).2 → ∃ r, em_target e = ToRoomExceptSender r)
  ∧ users (cleanup_rooms c (socket_leave_all c st)).1 = users st
  ∧ users (step st (Disconnect c)) !! c = None
  ∧ (∀ c', c' ≠ c → users (step st (Disconnect c)) !! c' = users st !! c')
  ∧ ((∀ r, c ∉ member_ids st r) →
       rooms (step st (Disconnect c)) = rooms st ∧ (handle (Disconnect c) st).2 = []).
Proof.
  assert (∀ r, filter (λ e, em_target e = ToRoomExceptSender r) (handle (Disconnect c) st).2
               = option_list (left_event (socket_leave_all c st) c r (rooms st !! r))) as Hf.
  { intros r. cbn [handle]. rewrite out_on_disconnect.
    rewrite filter_target_left_events by apply NoDup_fst_map_to_list.
    case_decide as E; [done|]. rewrite keys_spec in E.
    destruct (rooms st !! r); [|done]. exfalso; eauto. }
  assert (∀ e, e ∈ (handle (Disconnect c) st).2 → ∃ r, em_target e = ToRoomExceptSender r)
    as Ht.
  { intros e. cbn [handle]. rewrite out_on_disconnect, list_elem_of_omap.
    intros (r & _ & He). apply left_event_target in He. eauto. }
  assert (∀ r, c ∉ member_ids st r →
            filter (λ e, em_target e = ToRoomExceptSender r) (handle (Disconnect c) st).2 = [])
    as Hn.
  { intros r Hr. rewrite Hf. unfold member_ids, members in Hr. unfold left_event.
    destruct (rooms st !! r) as [l|]; simpl in *; [|done].
    apply find_user_None in Hr. by rewrite Hr. }
  assert (users (step st (Disconnect c)) = delete c (users st)) as Hu.
  { unfold step. cbn [handle]. unfold on_disconnect.
    destruct (cleanup_rooms_spec c (socket_leave_all c st)) as (_ & _ & H & _).
    destruct (cleanup_rooms _ _). simpl in *. by rewrite H. }
  split; [|split; [|split; [|split; [|split; [|split; [|split; [|split; [|split]]]]]]]];
    try done.
  - intros r. unfold member_ids. rewrite members_step. apply others_not_member.
  - intros r. apply members_step.
  - intros r Hc He. unfold step. cbn [handle]. rewrite rooms_on_disconnect.
    destruct (find_user_members c st r Hc) as (l & m & El & Hl & Em).
    rewrite El. unfold room_after. simpl. rewrite Em. rewrite Hl in He. by rewrite He.
  - intros r Hc. destruct (find_user_members c st r Hc) as (l & m & El & Hl & Em).
    exists m. rewrite Hl. split; [done|]. rewrite Hf, El. unfold left_event. simpl.
    rewrite Em. simpl. apply find_user_Some in Em as [<- _]. destruct m as [s u]. simpl.
    unfold emit_room_except. do 2 f_equal. rewrite !room_sockets_leave_all.
    f_equal. apply set_eq. intros x.
    rewrite !elem_of_difference, elem_of_union, elem_of_singleton. tauto.
  - by destruct (cleanup_rooms_spec c (socket_leave_all c st)) as (_ & _ & H & _).
  - rewrite Hu. apply lookup_delete_eq.
  - intros c' Hne. rewrite Hu. by apply lookup_delete_ne.
  - intros Hall. split.
    + apply map_eq. intros r. unfold step. cbn [handle]. rewrite rooms_on_disconnect.
      specialize (Hall r). unfold member_ids, members in Hall. unfold room_after.
      destruct (rooms st !! r) as [l|]; simpl in *; [|done].
      apply find_user_None in Hall. by rewrite Hall.
    + destruct (handle (Disconnect c) st).2 as [|e out] eqn:E; [done|].
      destruct (Ht e) as [r Hr]; [left|].
      specialize (Hn r (Hall r)). rewrite filter_cons_True in Hn by done. done.
Qed.

Lemma C5_disconnect_cleanup_witness :
  rooms (step X_in_room (Disconnect "X")) !! "apt-42" = None
  ∧ users (step (step X_in_room (Message "X" (userJoined "uX"))) (Disconnect "Y")) !! "X"
    = Some "uX"
  ∧ rooms (step X_in_room (Disconnect "Y")) = rooms X_in_room
  ∧ (handle (Disconnect "Y") X_in_room).2 = [].
Proof.
  split; [|split].
  - apply (C5_disconnect_cleanup X_in_room "X"); vm_compute; [left|reflexivity].
  - pose proof (C5_disconnect_cleanup (step X_in_room (Message "X" (userJoined "uX"))) "Y")
      as (_ & _ & _ & _ & _ & _ & _ & _ & H & _).
    rewrite (H "X") by done. by vm_compute.
  - apply (C5_disconnect_cleanup X_in_room "Y").
    intros r. unfold member_ids, members.
    replace (rooms X_in_room)
      with ({["apt-42" := [mkMember "X" "uX"]]} : gmap string (list Member))
      by (by vm_compute).
    destruct (decide (r = "apt-42")) as [->|Hne].
    + rewrite lookup_singleton_eq. simpl. not_among.
    + rewrite lookup_singleton_ne by done. simpl. apply not_elem_of_nil.
Defined.

(** *** The signalling relay *)







(** *** The identity map *)

(** C9, as amended: an identity message from connection [c] sets the entry
    of [c], replacing the one it had, and leaves the entries of the other
    connections as they are. *)
Theorem C9_association_overwrites st c u :
  users (step st (Message c (userJoined u))) = <[c := u]> (users st)
  ∧ users (step st (Message c (userJoined u))) !! c = Some u
  ∧ (∀ c', c' ≠ c →
       users (step st (Message c (userJoined u))) !! c' = users st !! c').
Proof.
  unfold step. simpl. split; [done|]. split.
  - apply lookup_insert_eq.
  - intros c' H. by apply lookup_insert_ne.
Qed.

Lemma C9_association_overwrites_witness :
  users (step (step two_sockets (Message "A" (userJoined "u1")))
           (Message "B" (userJoined "u2"))) !! "A"
  = users (step two_sockets (Message "A" (userJoined "u1"))) !! "A".
Proof.
  apply (C9_association_overwrites
           (step two_sockets (Message "A" (userJoined "u1"))) "B" "u2").
  congruence.
Defined.

(** C9, as stated, fails: two connections naming the same user are both
    associated to it. *)
Lemma C9_identity_on_two_connections :
  "A" ≠ "B"
  ∧ users (run [Message "A" (userJoined "u1"); Message "B" (userJoined "u1")] two_sockets)
      !! "A" = Some "u1"
  ∧ users (run [Message "A" (userJoined "u1"); Message "B" (userJoined "u1")] two_sockets)
      !! "B" = Some "u1".
Proof. by vm_compute. Qed.

End ServerFacts.

(** ** Properties of the client *)

Section ClientFacts.
Import Client.

Implicit Types (w : World) (r : Hooks) (p : Peer).

Local Abbreviation A := member_A.
Local Abbreviation B := member_B.

(** *** What destroying peers and committing leave alone *)

Lemma lookup_snoc_at {T} (l l' : list T) x :
  length l' = length l → (l' ++ [x]) !! length l = Some x.
Proof. intros <-. rewrite lookup_app_r by lia. by rewrite Nat.sub_diag. Qed.

Lemma commit_same w : commit (hooks w) w = w.
Proof. unfold commit. rewrite !decide_True by done. done. Qed.

Lemma stopped_destroy_all a w : stopped (destroy_all a w) = stopped w.
Proof.
  unfold destroy_all. generalize (map_to_list (peerMap w a)).*2. intros l.
  revert w. induction l as [|q l IH]; intros w; [done|].
  cbn [foldl]. by rewrite IH.
Qed.

Lemma destroy_all_frame a w :
  hooks (destroy_all a w) = hooks w ∧ peerMaps (destroy_all a w) = peerMaps w
  ∧ streamMaps (destroy_all a w) = streamMaps w ∧ emitted (destroy_all a w) = emitted w
  ∧ startCall_env (destroy_all a w) = startCall_env w.
Proof.
  unfold destroy_all. generalize (map_to_list (peerMap w a)).*2. intros l.
  revert w. induction l as [|q l IH]; intros w; [done|].
  cbn [foldl]. destruct (IH (destroy q w)) as (-> & -> & -> & -> & ->). done.
Qed.

Lemma cleanup_media_frame r w :
  hooks (cleanup_media r w) = hooks w ∧ peerMaps (cleanup_media r w) = peerMaps w
  ∧ streamMaps (cleanup_media r w) = streamMaps w ∧ emitted (cleanup_media r w) = emitted w.
Proof.
  unfold cleanup_media.
  destruct (destroy_all_frame (peers r)
              (match localStream r with Some ls => stop_tracks ls w | None => w end))
    as (-> & -> & -> & -> & _).
  by destruct (localStream r).
Qed.

Lemma commit_frame r w :
  hooks (commit r w) = hooks w ∧ peerMaps (commit r w) = peerMaps w
  ∧ streamMaps (commit r w) = streamMaps w ∧ emitted (commit r w) = emitted w.
Proof.
  unfold commit. destruct (cleanup_media_frame r w) as (H1 & H2 & H3 & H4).
  repeat case_decide; simpl; rewrite ?H1, ?H2, ?H3, ?H4; done.
Qed.

Lemma peerMap_commit r w a : peerMap (commit r w) a = peerMap w a.
Proof. unfold peerMap. by destruct (commit_frame r w) as (_ & -> & _). Qed.

Lemma streamMap_commit r w a : streamMap (commit r w) a = streamMap w a.
Proof. unfold streamMap. by destruct (commit_frame r w) as (_ & _ & -> & _). Qed.

Lemma hooks_commit r w : hooks (commit r w) = hooks w.
Proof. by destruct (commit_frame r w) as (-> & _). Qed.

Lemma emitted_commit r w : emitted (commit r w) = emitted w.
Proof. by destruct (commit_frame r w) as (_ & _ & _ & ->). Qed.

(** *** Line 154 *)

(** With whatever stack and arguments, [createPeerConnection] throws, and
    the world is then as it was at the call. *)
Lemma createPeerConnection_throws stack r remote local ls incomingOffer w :
  createPeerConnection stack r remote local ls incomingOffer w = threw w.
Proof.
  revert remote local ls incomingOffer.
  induction stack as [|stack IH]; intros remote local ls incomingOffer; [done|].
  cbn [createPeerConnection]. by rewrite IH.
Qed.

Lemma forEach_same {T} (f : T → World → Outcome unit) (l : list T) w :
  (∀ x w', world_of (f x w') = w') → world_of (forEach f l w) = w.
Proof.
  intros Hf. revert w. induction l as [|x l IH]; intros w; [done|].
  cbn [forEach]. specialize (Hf x w). destruct (f x w) as [[] w'|w']; simpl in Hf; subst.
  - apply IH.
  - done.
Qed.

Lemma on_roomUsers_eq r l w : on_roomUsers r l w = setUsers l w.
Proof.
  unfold on_roomUsers. destruct (localStream r) as [ls|]; [|done].
  destruct (socket r) as [id|]; [|done].
  apply forEach_same. intros u w'. by rewrite createPeerConnection_throws.
Qed.

Lemma on_receiveOffer_eq r offer from w : on_receiveOffer r offer from w = w.
Proof.
  unfold on_receiveOffer. destruct (localStream r) as [ls|]; [|done].
  destruct (socket r) as [id|]; [|done].
  by rewrite createPeerConnection_throws.
Qed.

Lemma startCall_eq r s w :
  startCall r (Some s) w = setIsCallActive true (setLocalStream (Some s) w).
Proof.
  unfold startCall. apply forEach_same. intros u w'.
  destruct (socket r); [|done]. by rewrite createPeerConnection_throws.
Qed.

(** *** What a step makes of the peers *)

Lemma peer_after_refl p : peer_after p p.
Proof. by split. Qed.

Lemma peer_after_trans p1 p2 p3 : peer_after p1 p2 → peer_after p2 p3 → peer_after p1 p3.
Proof. intros [H1 H2] [H3 H4]. split; [congruence|auto]. Qed.

Lemma peers_after_refl (l : list Peer) : Forall2 peer_after l l.
Proof. induction l; constructor; [apply peer_after_refl|done]. Qed.

Lemma peers_after_trans (l1 l2 l3 : list Peer) :
  Forall2 peer_after l1 l2 → Forall2 peer_after l2 l3 → Forall2 peer_after l1 l3.
Proof.
  intros H. revert l3. induction H as [|p1 p2 l1 l2 Hp H IH]; intros l3 H3.
  - by inversion H3.
  - inversion H3 as [|? p3 ? l3' Hp3 H3']; subst. constructor.
    + by eapply peer_after_trans.
    + by apply IH.
Qed.

Lemma peers_after_alter (f : Peer → Peer) q (l : list Peer) :
  (∀ p, peer_after p (f p)) → Forall2 peer_after l (alter f q l).
Proof.
  intros Hf. revert q. induction l as [|p l IH]; intros q; [constructor|].
  destruct q as [|q].
  - constructor; [apply Hf|apply peers_after_refl].
  - constructor; [apply peer_after_refl|apply IH].
Qed.

Lemma peer_after_destroy p : peer_after p (destroy_peer p).
Proof. by split. Qed.

Lemma peer_after_signal x p : peer_after p (signal_peer x p).
Proof. unfold signal_peer. destruct (destroyed p) eqn:E; by split. Qed.

Lemma peers_after_destroy_all a w :
  Forall2 peer_after (peerObjs w) (peerObjs (destroy_all a w)).
Proof.
  unfold destroy_all. generalize (map_to_list (peerMap w a)).*2. intros l.
  revert w. induction l as [|q l IH]; intros w; [apply peers_after_refl|].
  cbn [foldl]. eapply peers_after_trans; [|apply IH].
  apply peers_after_alter, peer_after_destroy.
Qed.

Lemma peers_after_destroy_all' a w (l : list Peer) :
  peerObjs w = l → Forall2 peer_after l (peerObjs (destroy_all a w)).
Proof. intros <-. apply peers_after_destroy_all. Qed.

Lemma peers_after_cleanup r w :
  Forall2 peer_after (peerObjs w) (peerObjs (cleanup_media r w)).
Proof.
  unfold cleanup_media.
  destruct (localStream r); by apply peers_after_destroy_all'.
Qed.

Lemma peers_after_commit r w : Forall2 peer_after (peerObjs w) (peerObjs (commit r w)).
Proof.
  unfold commit. pose proof (peers_after_cleanup r w).
  repeat case_decide; simpl; auto using peers_after_refl.
Qed.

Lemma peers_after_listener i r w :
  Forall2 peer_after (peerObjs w) (peerObjs (listener i r w)).
Proof.
  destruct i as [[l|u|u|o from|a from|c from]|q d|q s|q|q|room| |[s|]| | ];
    cbn [listener].
  - rewrite on_roomUsers_eq. apply peers_after_refl.
  - apply peers_after_refl.
  - unfold on_userLeftRoom.
    destruct (peerMap _ (peers r) !! Server.socketId u) as [p|]; simpl;
      (match goal with
       | |- context [streamMap ?x ?y !! ?z] => destruct (streamMap x y !! z)
       end); simpl;
      auto using peers_after_refl, peers_after_alter, peer_after_destroy.
  - rewrite on_receiveOffer_eq. apply peers_after_refl.
  - unfold on_receiveAnswer. destruct (peerMap w (peers r) !! from); simpl;
      auto using peers_after_refl, peers_after_alter, peer_after_signal.
  - unfold on_receiveIceCandidate. destruct (peerMap w (peers r) !! from); simpl;
      auto using peers_after_refl, peers_after_alter, peer_after_signal.
  - unfold on_peer. destruct (peerObjs w !! q) as [p|]; [|apply peers_after_refl].
    unfold peer_signal, emit. destruct d, (socket (env p)); apply peers_after_refl.
  - unfold on_peer. destruct (peerObjs w !! q) as [p|]; apply peers_after_refl.
  - unfold on_peer. destruct (peerObjs w !! q) as [p|]; [|apply peers_after_refl].
    unfold peer_close. destruct (peerMap w (peers (env p)) !! remotePeerId p); simpl;
      auto using peers_after_refl, peers_after_alter, peer_after_destroy.
  - unfold on_peer. destruct (peerObjs w !! q) as [p|]; apply peers_after_refl.
  - unfold joinRoom, emit. destruct (socket r), (user r); apply peers_after_refl.
  - unfold leaveRoom, emit.
    destruct (socket r); [|apply peers_after_refl].
    destruct (truthy (currentRoom r)); [|apply peers_after_refl].
    destruct (user r); [|apply peers_after_refl].
    cbn -[destroy_all]. by apply peers_after_destroy_all'.
  - rewrite startCall_eq. apply peers_after_refl.
  - apply peers_after_refl.
  - unfold endCall. destruct (localStream r); [|apply peers_after_refl].
    cbn -[destroy_all]. by apply peers_after_destroy_all'.
  - apply peers_after_cleanup.
Qed.

(** No step makes a peer, revives one or gives one another remote id. *)
Lemma peers_after_step w i : Forall2 peer_after (peerObjs w) (peerObjs (step w i)).
Proof.
  unfold step. eapply peers_after_trans; [apply peers_after_listener|].
  apply peers_after_commit.
Qed.


Lemma no_peer_run inputs user id : peerObjs (run inputs (mounted user id)) = [].
Proof.
  assert (∀ w, peerObjs w = [] → peerObjs (run inputs w) = []) as H.
  { induction inputs as [|i inputs IH]; intros w Hw; [done|].
    cbn [run foldl]. apply IH. pose proof (peers_after_step w i) as Hs.
    rewrite Hw in Hs. by inversion Hs. }
  by apply H.
Qed.

(** *** Sessions *)


(** *** Stale messages *)

Lemma signal_destroyed q x p w :
  peerObjs w !! q = Some p → destroyed p = true → signal q x w = w.
Proof.
  intros Hq Hp. unfold signal.
  assert (alter (signal_peer x) q (peerObjs w) = peerObjs w) as ->; [|by destruct w].
  apply list_eq. intros i. destruct (decide (i = q)) as [->|Hne].
  - rewrite list_lookup_alter_eq, Hq. simpl. unfold signal_peer. by rewrite Hp.
  - by rewrite list_lookup_alter_ne.
Qed.

Lemma signal_missing q x w : peerObjs w !! q = None → signal q x w = w.
Proof.
  intros Hq. unfold signal.
  assert (alter (signal_peer x) q (peerObjs w) = peerObjs w) as ->; [|by destruct w].
  apply list_eq. intros i. destruct (decide (i = q)) as [->|Hne].
  - by rewrite list_lookup_alter_eq, Hq.
  - by rewrite list_lookup_alter_ne.
Qed.

(** C7: an offer, an answer or a candidate from a remote id that has no
    live session (no entry in the map of peers, or an entry that names a
    destroyed peer) is dropped: after the step the world is what it was, so
    no session has changed and none was made.  For an offer this is so
    whatever the map holds. *)
Theorem C7_stale_messages w payload from :
  (∀ q p, peerMap w (peers (hooks w)) !! from = Some q → peerObjs w !! q = Some p →
          destroyed p = true) →
  step w (recv (Server.receiveOffer payload from)) = w
  ∧ step w (recv (Server.receiveAnswer payload from)) = w
  ∧ step w (recv (Server.receiveIceCandidate payload from)) = w.
Proof.
  intros Hstale.
  assert (∀ x, match peerMap w (peers (hooks w)) !! from with
               | Some peer => signal peer x w
               | None => w
               end = w) as Hdrop.
  { intros x. destruct (peerMap w (peers (hooks w)) !! from) as [q|] eqn:E; [|done].
    destruct (peerObjs w !! q) as [p|] eqn:Eq.
    - apply (signal_destroyed q x p); [done|]. by eapply Hstale.
    - by apply signal_missing. }
  unfold step. cbn [listener]. unfold on_receiveAnswer, on_receiveIceCandidate.
  rewrite on_receiveOffer_eq, !Hdrop. repeat split; apply commit_same.
Qed.

Lemma C7_stale_messages_witness :
  step (in_call [A]) (recv (Server.receiveOffer "sdp" "A")) = in_call [A]
  ∧ step (in_call [A]) (recv (Server.receiveAnswer "sdp" "A")) = in_call [A]
  ∧ step (in_call [A]) (recv (Server.receiveIceCandidate "sdp" "A")) = in_call [A].
Proof.
  apply (C7_stale_messages (in_call [A]) "sdp" "A").
  intros q p H. vm_compute in H. discriminate H.
Defined.

(** *** Closing a session, and the local stream *)

(** The listener of [userLeftRoom] by itself stops no track, keeps the local
    stream, and touches no peer other than the one the map of its render
    has for the member that left. *)
Lemma on_userLeftRoom_frame r u w :
  stopped (on_userLeftRoom r u w) = stopped w
  ∧ localStream (hooks (on_userLeftRoom r u w)) = localStream (hooks w)
  ∧ (∀ q, peerMap w (peers r) !! Server.socketId u ≠ Some q →
       peerObjs (on_userLeftRoom r u w) !! q = peerObjs w !! q).
Proof.
  unfold on_userLeftRoom.
  destruct (peerMap _ (peers r) !! Server.socketId u) as [p|] eqn:Ep; simpl;
    (match goal with |- context [streamMap ?x ?y !! ?z] => destruct (streamMap x y !! z) end);
    simpl; repeat split; try done;
    intros q Hq; apply list_lookup_alter_ne; intros ->; by apply Hq.
Qed.

(** C8 at the failing input.  The client has joined the room ["apt-42"],
    where it is alone, and its call is on with local stream 7, no track
    stopped.  The arrival and the departure of [A] stop nothing.
    [leaveRoom] is not the end of the call: the function stops no track,
    and after the step the local stream is still stream 7 and the call is
    still marked active; but its [setPeers(new Map())] changes [peers], the
    clean-up of the last effect runs, and the tracks of stream 7 are
    stopped. *)
Theorem C8_leaving_the_room_stops_the_tracks :
  localStream (hooks (in_room_call [])) = Some 7
  ∧ isCallActive (hooks (in_room_call [])) = true
  ∧ currentRoom (hooks (in_room_call [])) = Some "apt-42"
  ∧ elements (stopped (in_room_call [])) = []
  ∧ elements (stopped (run [recv (Server.userJoinedRoom A); recv (Server.userLeftRoom A)]
                         (in_room_call []))) = []
  ∧ elements (stopped (listener call_leaveRoom (hooks (in_room_call [])) (in_room_call [])))
    = []
  ∧ elements (stopped (step (in_room_call []) call_leaveRoom)) = [7]
  ∧ localStream (hooks (step (in_room_call []) call_leaveRoom)) = Some 7
  ∧ isCallActive (hooks (step (in_room_call []) call_leaveRoom)) = true.
Proof. by vm_compute. Qed.

End ClientFacts.

(** ** More on the server *)

Section ServerMore.
Import Server.

Implicit Types (st : State) (sid c r : string) (inputs : list Input).

Lemma state_eq st st' :
  users st = users st' → rooms st = rooms st' → sockets st = sockets st' →
  sio_rooms st = sio_rooms st' → st = st'.
Proof. destruct st, st'. simpl. by intros -> -> -> ->. Qed.

Lemma users_socket_leave sid r st : users (socket_leave sid r st) = users st.
Proof. unfold socket_leave. by destruct (sio_rooms st !! r). Qed.

Lemma sockets_socket_leave sid r st : sockets (socket_leave sid r st) = sockets st.
Proof. unfold socket_leave. by destruct (sio_rooms st !! r). Qed.

Lemma sockets_cleanup_rooms sid st : sockets (cleanup_rooms sid st).1 = sockets st.
Proof. unfold cleanup_rooms. by destruct (foldl _ _ _). Qed.

(** The identity map and the live sockets after one input. *)
Lemma users_step st i :
  users (step st i) =
    match i with
    | Message sid (userJoined u) => <[sid := u]> (users st)
    | Disconnect sid => delete sid (users st)
    | _ => users st
    end.
Proof.
  unfold step. destruct i as [sid|sid [u|r u|o t f|a t f|c t f|r u]|sid];
    cbn [handle]; try done.
  - unfold on_joinRoom, room_value. simpl.
    by destruct (rooms st !! r); [|destruct (inherited r)].
  - unfold on_leaveRoom, room_value.
    destruct (rooms st !! r); [case_bool_decide|destruct (inherited r)]; simpl;
      by rewrite ?users_socket_leave.
  - unfold on_disconnect.
    destruct (cleanup_rooms_spec sid (socket_leave_all sid st)) as (_ & _ & H & _).
    destruct (cleanup_rooms _ _). simpl in *. by rewrite H.
Qed.

Lemma sockets_step st i :
  sockets (step st i) =
    match i with
    | Connection sid => {[sid]} ∪ sockets st
    | Disconnect sid => sockets st ∖ {[sid]}
    | _ => sockets st
    end.
Proof.
  unfold step. destruct i as [sid|sid [u|r u|o t f|a t f|c t f|r u]|sid];
    cbn [handle]; try done.
  - unfold on_joinRoom, room_value. simpl.
    by destruct (rooms st !! r); [|destruct (inherited r)].
  - unfold on_leaveRoom, room_value.
    destruct (rooms st !! r); [case_bool_decide|destruct (inherited r)]; simpl;
      by rewrite ?sockets_socket_leave.
  - unfold on_disconnect.
    pose proof (sockets_cleanup_rooms sid (socket_leave_all sid st)) as H.
    destruct (cleanup_rooms _ _). simpl in *. by rewrite H.
Qed.

Lemma on_leaveRoom_inherited sid r u st :
  room_value st r = inherited_value → on_leaveRoom sid r u st = (st, []).
Proof. intros H. unfold on_leaveRoom. by rewrite H. Qed.

Lemma sio_rooms_on_leaveRoom sid r u st :
  room_value st r ≠ inherited_value →
  sio_rooms (on_leaveRoom sid r u st).1 = sio_rooms (socket_leave sid r st).
Proof.
  unfold on_leaveRoom, socket_leave. intros H.
  destruct (room_value st r); [case_bool_decide| |]; simpl;
    try done; by destruct (sio_rooms st !! r).
Qed.

Lemma without_without sid (X X' : gset string) :
  without sid X = Some X' → without sid X' = Some X'.
Proof.
  unfold without. case_decide as E; [done|]. intros [= <-].
  rewrite difference_difference_l_L, union_idemp_L. by rewrite decide_False.
Qed.

Lemma socket_leave_idemp sid r st :
  sio_rooms (socket_leave sid r (socket_leave sid r st)) = sio_rooms (socket_leave sid r st).
Proof.
  unfold socket_leave at 2 3.
  destruct (sio_rooms st !! r) as [X|] eqn:E.
  - destruct (without sid X) as [X'|] eqn:EX.
    + unfold socket_leave. simpl. rewrite lookup_insert_eq.
      rewrite (without_without _ _ _ EX). simpl. by rewrite insert_insert_eq.
    + unfold socket_leave. simpl. by rewrite lookup_delete_eq.
  - unfold socket_leave. by rewrite E.
Qed.

Lemma others_idemp sid (l : list Member) : others sid (others sid l) = others sid l.
Proof. apply others_id, others_not_member. Qed.

Lemma sio_rooms_socket_leave_ext sid r st st' :
  sio_rooms st = sio_rooms st' →
  sio_rooms (socket_leave sid r st) = sio_rooms (socket_leave sid r st').
Proof.
  intros H. unfold socket_leave. rewrite <- H.
  by destruct (sio_rooms st !! r).
Qed.

(** *** Leaving, again *)

(** A second [leaveRoom] of the same socket for the same room, with whatever
    user id, leaves the whole state as the first one left it. *)
Theorem leaveRoom_idempotent st sid r u u' :
  step (step st (Message sid (leaveRoom r u))) (Message sid (leaveRoom r u'))
  = step st (Message sid (leaveRoom r u)).
Proof.
  set (st1 := step st (Message sid (leaveRoom r u))).
  destruct (decide (room_value st1 r = inherited_value)) as [H1|H1].
  { unfold step at 1. cbn [handle]. by rewrite on_leaveRoom_inherited. }
  destruct (decide (room_value st r = inherited_value)) as [H0|H0].
  { exfalso. apply H1. subst st1. unfold step. cbn [handle].
    by rewrite on_leaveRoom_inherited. }
  apply state_eq.
  - by rewrite !users_step.
  - apply map_eq. intros r'. subst st1. unfold step. cbn [handle].
    rewrite !rooms_on_leaveRoom.
    destruct (decide (r' = r)) as [->|Hne]; [|done]. rewrite decide_True by done.
    destruct (rooms st !! r) as [l|]; simpl; [|done].
    case_bool_decide as E; simpl; [done|].
    rewrite others_idemp. by rewrite bool_decide_eq_false_2.
  - by rewrite !sockets_step.
  - unfold step at 1. cbn [handle]. rewrite sio_rooms_on_leaveRoom by done.
    subst st1. unfold step. cbn [handle].
    rewrite (sio_rooms_socket_leave_ext sid r _ (socket_leave sid r st))
      by (by apply sio_rooms_on_leaveRoom).
    rewrite sio_rooms_on_leaveRoom by done.
    apply socket_leave_idemp.
Qed.

(** Along every run from the empty registry, a socket that is not a member
    of a room and joins it and then leaves it puts the registry back as it
    was. *)
Theorem join_then_leave_restores_registry inputs sid r u u' :
  sid ∉ member_ids (run inputs init) r →
  rooms (step (step (run inputs init) (Message sid (joinRoom r u)))
           (Message sid (leaveRoom r u')))
  = rooms (run inputs init).
Proof.
  intros Hnin. pose proof (rooms_nonempty_run inputs init init_nonempty) as Hne.
  apply map_eq. intros r'. unfold step. cbn [handle].
  rewrite rooms_on_leaveRoom, rooms_on_joinRoom.
  destruct (decide (room_value (run inputs init) r = inherited_value)) as [Hi|Hi].
  { case_decide as Er; [subst r'|done].
    apply room_value_inherited in Hi as [-> _]. done. }
  case_decide as Er; [subst r'|by rewrite lookup_insert_ne].
  rewrite lookup_insert_eq. simpl.
  rewrite others_app, others_self, app_nil_r, (others_id _ _ Hnin).
  unfold members. destruct (rooms (run inputs init) !! r) as [l|] eqn:E; simpl.
  - rewrite bool_decide_eq_false_2; [done|]. rewrite length_zero_nil. by eapply Hne.
  - done.
Qed.

Lemma join_then_leave_restores_registry_witness :
  rooms (step (step X_in_room (Message "Y" (joinRoom "apt-42" "uY")))
           (Message "Y" (leaveRoom "apt-42" "uY")))
  = rooms X_in_room.
Proof.
  apply (join_then_leave_restores_registry
           [Connection "X"; Connection "Y"; Message "X" (joinRoom "apt-42" "uX")]
           "Y" "apt-42" "uY" "uY").
  vm_compute. intros H. apply elem_of_cons in H as [H|H]; [discriminate H|].
  by apply elem_of_nil in H.
Defined.

(** What [leaveRoom] does in a state a run from the empty registry reaches:
    in that room every entry of the sender goes and the others stay in
    order, the other rooms stay as they are, and the room remains exactly
    when somebody else is left.  The notification is addressed to the room
    except the room named by the sender's id: a member that is left
    receives one [userLeftRoom], with the sender's connection id and the
    user id the sender supplied, when it is not in the room named by the
    sender's id, and nothing when it is; and the sender receives nothing
    when it sits in the room of its own id or is not in the room it
    leaves, and its own notification when it has left the room of its own
    id and others remain. *)
Theorem leaveRoom_effect inputs sid r u :
  (∀ r', members (step (run inputs init) (Message sid (leaveRoom r u))) r'
         = if decide (r' = r) then others sid (members (run inputs init) r)
           else members (run inputs init) r')
  ∧ (is_Some (rooms (step (run inputs init) (Message sid (leaveRoom r u))) !! r)
     ↔ others sid (members (run inputs init) r) ≠ [])
  ∧ (∀ m, m ∈ others sid (members (run inputs init) r) →
       socketId m ∉ room_sockets (run inputs init) sid →
       received (socketId m) (handle (Message sid (leaveRoom r u)) (run inputs init)).2
       = [userLeftRoom (mkMember sid u)])
  ∧ (∀ m, m ∈ others sid (members (run inputs init) r) →
       socketId m ∈ room_sockets (run inputs init) sid →
       received (socketId m) (handle (Message sid (leaveRoom r u)) (run inputs init)).2
       = [])
  ∧ (sid ∈ room_sockets (run inputs init) sid ∨ sid ∉ room_sockets (run inputs init) r →
       received sid (handle (Message sid (leaveRoom r u)) (run inputs init)).2 = [])
  ∧ (sid ∉ room_sockets (run inputs init) sid → sid ∈ room_sockets (run inputs init) r →
       others sid (members (run inputs init) r) ≠ [] →
       received sid (handle (Message sid (leaveRoom r u)) (run inputs init)).2
       = [userLeftRoom (mkMember sid u)]).
Proof.
  split; [|split; [|split; [|split; [|split]]]].
  - intros r'. rewrite members_step. by case_decide; subst.
  - pose proof (rooms_nonempty_step _ (Message sid (leaveRoom r u))
                  (rooms_nonempty_run inputs init init_nonempty)) as H.
    apply rooms_nonempty_iff with (r := r) in H.
    rewrite members_step in H. by rewrite decide_True in H.
  - intros m Hm Hnin. cbn [handle]. rewrite received_leave.
    rewrite decide_True; [done|]. split.
    + intros E. rewrite E in Hm. by apply elem_of_nil in Hm.
    + apply elem_of_others in Hm as [_ Hm]. apply elem_of_difference. split; [|done].
      by apply (members_joined_run inputs init init_members_joined).
  - intros m Hm Hin. cbn [handle]. rewrite received_leave.
    rewrite decide_False; [done|]. intros [_ [_ H]%elem_of_difference]. auto.
  - intros H. cbn [handle]. rewrite received_leave.
    rewrite decide_False; [done|]. intros [_ [H1 H2]%elem_of_difference]. tauto.
  - intros H1 H2 H3. cbn [handle]. rewrite received_leave.
    rewrite decide_True; [done|]. split; [done|]. by apply elem_of_difference.
Qed.

Lemma leaveRoom_effect_witness :
  received "X"
    (handle (Message "Y" (leaveRoom "apt-42" "uY"))
       (step X_in_room (Message "Y" (joinRoom "apt-42" "uY")))).2
  = [userLeftRoom (mkMember "Y" "uY")]
  ∧ received "Y"
      (handle (Message "Y" (leaveRoom "apt-42" "uY"))
         (step X_in_room (Message "Y" (joinRoom "apt-42" "uY")))).2 = []
  ∧ received "X"
      (handle (Message "Y" (leaveRoom "apt-42" "uY"))
         (run [Connection "X"; Connection "Y"; Message "X" (joinRoom "Y" "uX");
               Message "X" (joinRoom "apt-42" "uX");
               Message "Y" (joinRoom "apt-42" "uY")] init)).2 = [].
Proof.
  split; [|split].
  - pose proof (leaveRoom_effect
                  [Connection "X"; Connection "Y"; Message "X" (joinRoom "apt-42" "uX");
                   Message "Y" (joinRoom "apt-42" "uY")]
                  "Y" "apt-42" "uY") as (_ & _ & H & _).
    apply (H (mkMember "X" "uX")); [vm_compute; left|].
    vm_compute. intros E. discriminate E.
  - pose proof (leaveRoom_effect
                  [Connection "X"; Connection "Y"; Message "X" (joinRoom "apt-42" "uX");
                   Message "Y" (joinRoom "apt-42" "uY")]
                  "Y" "apt-42" "uY") as (_ & _ & _ & _ & H & _).
    apply H. left. by vm_compute.
  - pose proof (leaveRoom_effect
                  [Connection "X"; Connection "Y"; Message "X" (joinRoom "Y" "uX");
                   Message "X" (joinRoom "apt-42" "uX");
                   Message "Y" (joinRoom "apt-42" "uY")]
                  "Y" "apt-42" "uY") as (_ & _ & _ & H & _).
    apply (H (mkMember "X" "uX")); [vm_compute; left|by vm_compute].
Defined.

(** *** Disconnecting, again *)

Lemma room_after_idemp sid o : room_after sid (room_after sid o) = room_after sid o.
Proof.
  unfold room_after. destruct o as [l|]; simpl; [|done].
  destruct (find_user sid l) eqn:E; simpl.
  - case_bool_decide as El; simpl; [done|].
    assert (find_user sid (others sid l) = None) as ->
      by apply find_user_None, others_not_member.
    done.
  - by rewrite E.
Qed.

Lemma out_on_disconnect_nil sid st :
  (∀ r, sid ∉ member_ids st r) → (on_disconnect sid st).2 = [].
Proof.
  intros Hall. rewrite out_on_disconnect.
  induction (keys (rooms st)) as [|k ks IH]; [done|].
  assert (left_event (socket_leave_all sid st) sid k (rooms st !! k) = None) as Hk.
  { specialize (Hall k). unfold member_ids, members in Hall. unfold left_event.
    destruct (rooms st !! k) as [l|]; simpl in *; [|done].
    apply find_user_None in Hall. by rewrite Hall. }
  change (omap ?f (k :: ks)) with (match f k with Some y => y :: omap f ks | None => omap f ks end).
  cbv beta. by rewrite Hk.
Qed.

(** A second clean-up for the same connection id changes nothing and emits
    nothing. *)
Theorem disconnect_idempotent st c :
  step (step st (Disconnect c)) (Disconnect c) = step st (Disconnect c)
  ∧ (handle (Disconnect c) (step st (Disconnect c))).2 = [].
Proof.
  split.
  - apply state_eq.
    + rewrite !users_step. apply map_eq. intros k.
      destruct (decide (k = c)) as [->|Hne].
      * by rewrite !lookup_delete_eq.
      * by rewrite !lookup_delete_ne.
    + apply map_eq. intros r. unfold step. cbn [handle]. rewrite !rooms_on_disconnect.
      apply room_after_idemp.
    + rewrite !sockets_step. by rewrite difference_difference_l_L, union_idemp_L.
    + unfold step. cbn [handle]. rewrite !sio_rooms_cleanup. unfold socket_leave_all.
      cbn [sio_rooms]. rewrite sio_rooms_cleanup. cbn [sio_rooms socket_leave_all].
      apply map_eq. intros r. rewrite !lookup_omap.
      destruct (sio_rooms st !! r) as [X|]; simpl; [|done].
      destruct (without c X) as [X'|] eqn:E; simpl; [|done].
      by apply without_without in E.
  - cbn [handle]. apply out_on_disconnect_nil. intros r. unfold member_ids.
    rewrite members_step. apply others_not_member.
Qed.

(** *** Only connected sockets *)

Lemma rooms_live_step st i :
  match i with Message sid _ => sid ∈ sockets st | _ => True end →
  (∀ r, room_sockets st r ⊆ sockets st) →
  ∀ r, room_sockets (step st i) r ⊆ sockets (step st i).
Proof.
  intros Hi Hst r. rewrite room_sockets_step, sockets_step. specialize (Hst r).
  destruct i as [sid|sid [u|r' u|o t f|a t f|c t f|r' u]|sid]; try done;
    try case_decide; set_solver.
Qed.

Lemma users_live_step st i :
  (∀ c, is_Some (users st !! c) → c ∈ sockets st) →
  match i with Message sid _ => sid ∈ sockets st | _ => True end →
  ∀ c, is_Some (users (step st i) !! c) → c ∈ sockets (step st i).
Proof.
  intros Hst Hi c. rewrite users_step, sockets_step. specialize (Hst c).
  destruct i as [sid|sid [u|r' u|o t f|a t f|x t f|r' u]|sid]; try done.
  - intros H. apply elem_of_union. right. auto.
  - destruct (decide (c = sid)) as [->|Hne]; [done|].
    by rewrite lookup_insert_ne.
  - destruct (decide (c = sid)) as [->|Hne].
    + rewrite lookup_delete_eq. by intros [? ?].
    + rewrite lookup_delete_ne by done. intros H. apply elem_of_difference.
      split; [auto|]. by rewrite elem_of_singleton.
Qed.

Lemma live_run inputs st :
  senders_connected inputs st →
  (∀ r, room_sockets st r ⊆ sockets st) →
  (∀ c, is_Some (users st !! c) → c ∈ sockets st) →
  (∀ r, room_sockets (run inputs st) r ⊆ sockets (run inputs st))
  ∧ (∀ c, is_Some (users (run inputs st) !! c) → c ∈ sockets (run inputs st)).
Proof.
  revert st. induction inputs as [|i inputs IH]; intros st Hc Hr Hu; [done|].
  destruct Hc as [Hi Hc]. simpl. apply IH; [done| |].
  - by apply rooms_live_step.
  - by apply users_live_step.
Qed.

Lemma recipients_live st i e c :
  match i with Message sid _ => sid ∈ sockets st | _ => True end →
  (∀ r, room_sockets st r ⊆ sockets st) →
  e ∈ (handle i st).2 → c ∈ em_recipients e → c ∈ sockets (step st i).
Proof.
  intros Hi Hst He Hc. rewrite sockets_step.
  destruct i as [sid|sid [u|r u|o t f|a t f|x t f|r u]|sid]; cbn [handle] in He.
  - by apply elem_of_nil in He.
  - by apply elem_of_nil in He.
  - rewrite out_on_joinRoom in He. case_decide; [by apply elem_of_nil in He|].
    apply elem_of_cons in He as [->|He]; [|apply list_elem_of_singleton in He as ->].
    + simpl in Hc. by apply list_elem_of_singleton in Hc as ->.
    + simpl in Hc. apply elem_of_elements in Hc.
      rewrite (room_sockets_join sid r st r), decide_True in Hc by done.
      apply elem_of_difference in Hc as [Hc _]. specialize (Hst r). set_solver.
  - apply list_elem_of_singleton in He as ->. simpl in Hc.
    apply elem_of_elements in Hc. by apply (Hst t).
  - apply list_elem_of_singleton in He as ->. simpl in Hc.
    apply elem_of_elements in Hc. by apply (Hst t).
  - apply list_elem_of_singleton in He as ->. simpl in Hc.
    apply elem_of_elements in Hc. by apply (Hst t).
  - rewrite out_on_leaveRoom in He. case_decide; [by apply elem_of_nil in He|].
    apply list_elem_of_singleton in He as ->. simpl in Hc.
    apply elem_of_elements in Hc. specialize (Hst r). set_solver.
  - rewrite out_on_disconnect, list_elem_of_omap in He.
    destruct He as (k & _ & He). apply left_event_Some in He as (l & m & _ & _ & ->).
    simpl in Hc. apply elem_of_elements in Hc.
    rewrite room_sockets_leave_all in Hc. specialize (Hst k). set_solver.
Qed.

(** On a run whose messages all come from connected sockets, only connected
    sockets are anywhere: the members of every room, the keys of [users],
    the sockets of every socket.io room, and the recipients of whatever the
    next input emits. *)
Theorem only_connected_sockets inputs :
  senders_connected inputs init →
  (∀ r m, m ∈ members (run inputs init) r → socketId m ∈ sockets (run inputs init))
  ∧ (∀ c, is_Some (users (run inputs init) !! c) → c ∈ sockets (run inputs init))
  ∧ (∀ r c, c ∈ room_sockets (run inputs init) r → c ∈ sockets (run inputs init))
  ∧ (∀ i e c, senders_connected [i] (run inputs init) →
       e ∈ (handle i (run inputs init)).2 → c ∈ em_recipients e →
       c ∈ sockets (step (run inputs init) i)).
Proof.
  intros Hc.
  destruct (live_run inputs init Hc) as [Hr Hu].
  { intros r. unfold room_sockets, init. simpl. rewrite lookup_empty. set_solver. }
  { intros c. unfold init. simpl. rewrite lookup_empty. by intros [? ?]. }
  split; [|split; [|split]].
  - intros r m Hm. apply (Hr r).
    by apply (members_joined_run inputs init init_members_joined).
  - done.
  - intros r c. apply Hr.
  - intros i e c [Hi _]. by apply recipients_live.
Qed.

Lemma only_connected_sockets_witness :
  "X" ∈ sockets X_in_room.
Proof.
  apply (only_connected_sockets
           [Connection "X"; Connection "Y"; Message "X" (joinRoom "apt-42" "uX")])
    with (r := "apt-42") (m := mkMember "X" "uX").
  - repeat split; by vm_compute.
  - vm_compute. left.
Defined.

(** *** The relay and the socket.io rooms *)





End ServerMore.

(** ** The accepted origins *)

Section CorsFacts.
Import Cors.

Implicit Types (s pat pre post o : string) (env : Env).

Lemma append_empty s : String.append EmptyString s = s.
Proof. reflexivity. Qed.

Lemma append_cons a s1 s2 : String.append (String a s1) s2 = String a (String.append s1 s2).
Proof. reflexivity. Qed.

Lemma append_assoc s1 s2 s3 :
  String.append (String.append s1 s2) s3 = String.append s1 (String.append s2 s3).
Proof.
  induction s1 as [|a s1 IH]; [done|]. by rewrite !append_cons, IH.
Qed.

Lemma prefix_spec pat s :
  String.prefix pat s = true ↔ ∃ post, s = String.append pat post.
Proof.
  revert s. induction pat as [|a pat IH]; intros s.
  - split; [|by destruct s]. intros _. by exists s.
  - destruct s as [|b s]; simpl.
    + split; [done|]. by intros [post H].
    + destruct (ascii_dec a b) as [->|Hne].
      * rewrite IH. split; intros [post H]; exists post.
        -- by rewrite append_cons, H.
        -- rewrite append_cons in H. by injection H.
      * split; [done|]. intros [post H]. rewrite append_cons in H. injection H. congruence.
Qed.

(** [includes] is the sub-string test. *)
Lemma includes_spec s pat :
  includes s pat = true ↔ ∃ pre post, s = String.append pre (String.append pat post).
Proof.
  induction s as [|a s IH]; cbn [includes].
  - rewrite orb_false_r, prefix_spec. split.
    + intros [post H]. by exists EmptyString, post.
    + intros (pre & post & H). destruct pre; [by exists post|done].
  - rewrite orb_true_iff, prefix_spec, IH. split.
    + intros [[post H]|(pre & post & H)].
      * by exists EmptyString, post.
      * exists (String a pre), post. by rewrite append_cons, H.
    + intros (pre & post & H). destruct pre as [|b pre].
      * left. by exists post.
      * right. rewrite append_cons in H. injection H as -> H. by exists pre, post.
Qed.

Lemma includes_trans s mid pat :
  includes s mid = true → includes mid pat = true → includes s pat = true.
Proof.
  rewrite !includes_spec. intros (p1 & q1 & ->) (p2 & q2 & ->).
  exists (String.append p1 p2), (String.append q2 q1).
  by rewrite !append_assoc.
Qed.

(** Whatever the environment and the list of allowed origins, an origin that
    has [vercel.app] anywhere in it is accepted. *)
Theorem origin_with_vercel_app_accepted env pre post :
  origin_check env (Some (String.append pre (String.append "vercel.app" post)))
  = allowed_origin.
Proof.
  assert (includes (String.append pre (String.append "vercel.app" post)) "vercel.app" = true)
    as Hin by (apply includes_spec; eauto).
  unfold origin_check.
  destruct (truthy _) as [o|] eqn:E; [|done].
  assert (o = String.append pre (String.append "vercel.app" post)) as ->.
  { unfold truthy in E. by destruct (String.append pre _); [|injection E]. }
  case_bool_decide; [done|]. destruct (existsb _ _); [done|]. by rewrite Hin.
Qed.

Lemma matches_exact o a : includes a "*" = false → matches o a = String.eqb o a.
Proof. unfold matches. by intros ->. Qed.

Lemma matches_wildcard o a :
  includes a "*" = true → matches o a = includes o (remove_first "*"%char a).
Proof. unfold matches. by intros ->. Qed.

(** With [CLIENT_URL], [VERCEL_URL] and [FRONTEND_URL] unset and outside
    development, a non-empty origin is accepted exactly when it is one of
    the four local origins or has [vercel.app] in it. *)
Theorem origin_check_default env o :
  truthy (CLIENT_URL env) = None → truthy (VERCEL_URL env) = None →
  truthy (FRONTEND_URL env) = None → NODE_ENV env ≠ Some "development" →
  o ≠ EmptyString →
  (origin_check env (Some o) = allowed_origin
   ↔ o ∈ ["http://localhost:5173"; "http://127.0.0.1:5173";
          "http://localhost:5174"; "http://127.0.0.1:5174"]
     ∨ ∃ pre post, o = String.append pre (String.append "vercel.app" post)).
Proof.
  intros Hc Hv Hf Hdev Ho. unfold origin_check.
  assert (truthy (Some o) = Some o) as -> by by destruct o.
  rewrite bool_decide_eq_false_2 by done.
  unfold allowedOrigins, pushed. rewrite Hc, Hv, Hf.
  cbn [app existsb].
  rewrite !matches_exact by reflexivity.
  rewrite matches_wildcard by reflexivity.
  change (remove_first "*"%char "https://*.vercel.app") with "https://.vercel.app".
  rewrite <- includes_spec. rewrite !elem_of_cons, elem_of_nil.
  destruct (includes o "vercel.app") eqn:Ev.
  - split; [auto|]. intros _. by repeat destruct (_ || _).
  - assert (includes o "https://.vercel.app" = false) as ->.
    { destruct (includes o "https://.vercel.app") eqn:E; [|done].
      rewrite <- Ev. symmetry. by apply (includes_trans _ _ _ E). }
    assert ((o =? "https://doc-connect-24.vercel.app")%string = false) as ->.
    { destruct (String.eqb_spec o "https://doc-connect-24.vercel.app") as [->|]; [|done].
      by vm_compute in Ev. }
    rewrite !orb_false_r.
    destruct (String.eqb_spec o "http://localhost:5173"); [by split; auto|].
    destruct (String.eqb_spec o "http://127.0.0.1:5173"); [by split; auto|].
    destruct (String.eqb_spec o "http://localhost:5174"); [by split; auto|].
    destruct (String.eqb_spec o "http://127.0.0.1:5174"); [by split; auto 6|].
    simpl. split; [done|]. intros [H|H]; [|done]. tauto.
Qed.

Lemma origin_check_default_witness :
  origin_check (mkEnv None (Some "") None (Some "production"))
    (Some "http://localhost:5174") = allowed_origin.
Proof.
  apply (origin_check_default (mkEnv None (Some "") None (Some "production"))
           "http://localhost:5174"); try done.
  left. right. right. left.
Defined.

(** Every origin on the list given to socket.io is on the list the [cors]
    middleware tests, and the known front end is on both, whatever the
    environment. *)
Theorem socketOrigins_within_allowedOrigins env :
  (∀ o, o ∈ socketOrigins env → o ∈ allowedOrigins env)
  ∧ "https://doc-connect-24.vercel.app" ∈ socketOrigins env
  ∧ "https://doc-connect-24.vercel.app" ∈ allowedOrigins env.
Proof.
  unfold socketOrigins, allowedOrigins. split; [|split].
  - intros o. rewrite !elem_of_app, !elem_of_cons, !elem_of_nil.
    destruct (truthy (CLIENT_URL env)); [tauto|].
    rewrite !elem_of_cons, !elem_of_nil. tauto.
  - rewrite !elem_of_app. right. right. left.
  - rewrite !elem_of_app. right. right. left.
Qed.

Lemma socketOrigins_within_allowedOrigins_witness :
  "https://preview.example" ∈
    allowedOrigins (mkEnv (Some "https://a.example , https://b.example") None
                      (Some "https://preview.example") None).
Proof.
  apply (socketOrigins_within_allowedOrigins
           (mkEnv (Some "https://a.example , https://b.example") None
              (Some "https://preview.example") None)).
  vm_compute. do 2 right. left.
Defined.

End CorsFacts.

(** ** More on the client *)

Section ClientMore.
Import Client.

Implicit Types (w : World) (r : Hooks) (p : Peer).

(** *** A member leaves *)



(** *** Hanging up *)

Lemma destroy_peer_idemp p : destroy_peer (destroy_peer p) = destroy_peer p.
Proof. done. Qed.

Lemma destroy_list_lookup (l : list nat) w q :
  peerObjs (foldl (λ w (x : nat), destroy x w) w l) !! q
  = (if decide (q ∈ l) then destroy_peer else id) <$> (peerObjs w !! q).
Proof.
  revert w. induction l as [|q0 l IH]; intros w.
  - case_decide as E; [by apply elem_of_nil in E|]. cbn [foldl].
    by destruct (peerObjs w !! q).
  - cbn [foldl]. rewrite IH. unfold destroy at 1. cbn [peerObjs with_peerObjs].
    destruct (decide (q = q0)) as [->|Hne].
    + rewrite list_lookup_alter_eq. rewrite (decide_True (P := q0 ∈ q0 :: l)) by left.
      destruct (peerObjs w !! q0); simpl; [|done]. by case_decide.
    + rewrite list_lookup_alter_ne by done.
      destruct (decide (q ∈ l)).
      * by rewrite decide_True by (by right).
      * rewrite decide_False; [done|]. rewrite elem_of_cons. tauto.
Qed.

(** The peers the map at [a] names are destroyed; the others are left. *)
Lemma destroy_all_lookup a w q :
  peerObjs (destroy_all a w) !! q
  = (if decide (q ∈ (map_to_list (peerMap w a)).*2) then destroy_peer else id)
      <$> (peerObjs w !! q).
Proof. apply destroy_list_lookup. Qed.

Lemma named_by_map (m : gmap string nat) q :
  q ∈ (map_to_list m).*2 ↔ ∃ k, m !! k = Some q.
Proof.
  rewrite list_elem_of_fmap. split.
  - intros ([k q'] & -> & H). apply elem_of_map_to_list in H. eauto.
  - intros [k H]. exists (k, q). split; [done|]. by apply elem_of_map_to_list.
Qed.

Lemma destroy_all_ext a w w' :
  peerMaps w = peerMaps w' → peerObjs w = peerObjs w' →
  peerObjs (destroy_all a w) = peerObjs (destroy_all a w').
Proof.
  intros Hm Ho. apply list_eq. intros q. rewrite !destroy_all_lookup.
  unfold peerMap. by rewrite Hm, Ho.
Qed.

Lemma destroy_all_twice a w w' :
  peerMap w' a = peerMap w a → peerObjs w' = peerObjs (destroy_all a w) →
  peerObjs (destroy_all a w') = peerObjs (destroy_all a w).
Proof.
  intros Hm Ho. apply list_eq. intros q. rewrite destroy_all_lookup, Hm, Ho.
  rewrite destroy_all_lookup. destruct (peerObjs w !! q); simpl; [|done].
  by case_decide.
Qed.

Lemma default_snoc_empty {V} (l : list (gmap string V)) a :
  default ∅ ((l ++ [∅]) !! a) = default ∅ (l !! a).
Proof.
  destruct (decide (a < length l)).
  - by rewrite lookup_app_l.
  - rewrite lookup_app_r by lia. rewrite (lookup_ge_None_2 l a) by lia.
    by destruct (a - length l) as [|[|?]].
Qed.

(** What a commit does to the peers: nothing, or it destroys those the map
    of the previous render names. *)
Lemma commit_objs r w :
  peerObjs (commit r w) = peerObjs w
  ∨ peerObjs (commit r w) = peerObjs (destroy_all (peers r) w).
Proof.
  unfold commit.
  assert (peerObjs (cleanup_media r w) = peerObjs (destroy_all (peers r) w)) as H.
  { unfold cleanup_media. apply destroy_all_ext; by destruct (localStream r). }
  repeat case_decide; simpl; auto.
Qed.

Lemma stopped_commit r w ls : ls ∈ stopped w → ls ∈ stopped (commit r w).
Proof.
  intros H. unfold commit.
  assert (ls ∈ stopped (cleanup_media r w)) as H'.
  { unfold cleanup_media. rewrite stopped_destroy_all.
    destruct (localStream r); simpl; [|done]. apply elem_of_union. by right. }
  by repeat case_decide.
Qed.

Lemma endCall_fields r w ls :
  localStream r = Some ls →
  hooks (endCall r w)
  = mkHooks (user (hooks w)) (socket (hooks w)) (length (peerMaps w)) None
      (length (streamMaps w)) (currentRoom (hooks w)) false (users (hooks w))
      (usersId (hooks w))
  ∧ peerMaps (endCall r w) = peerMaps w ++ [∅]
  ∧ streamMaps (endCall r w) = streamMaps w ++ [∅]
  ∧ peerObjs (endCall r w) = peerObjs (destroy_all (peers r) w)
  ∧ stopped (endCall r w) = {[ls]} ∪ stopped w
  ∧ emitted (endCall r w) = emitted w.
Proof.
  intros Hl. unfold endCall. rewrite Hl.
  set (w3 := setIsCallActive false (setLocalStream None (stop_tracks ls w))).
  destruct (destroy_all_frame (peers r) w3) as (Hh & Hp & Hs & He & _).
  pose proof (stopped_destroy_all (peers r) w3) as Hst.
  cbn -[destroy_all]. rewrite Hh, Hp, Hs, He, Hst.
  repeat split; try done. by apply destroy_all_ext.
Qed.

Lemma leaveRoom_fields r w id room uid :
  socket r = Some id → truthy (currentRoom r) = Some room → user r = Some uid →
  hooks (leaveRoom r w)
  = mkHooks (user (hooks w)) (socket (hooks w)) (length (peerMaps w))
      (localStream (hooks w)) (length (streamMaps w)) None (isCallActive (hooks w)) []
      (S (usersId (hooks w)))
  ∧ peerMaps (leaveRoom r w) = peerMaps w ++ [∅]
  ∧ streamMaps (leaveRoom r w) = streamMaps w ++ [∅]
  ∧ peerObjs (leaveRoom r w) = peerObjs (destroy_all (peers r) w)
  ∧ stopped (leaveRoom r w) = stopped w
  ∧ emitted (leaveRoom r w) = emitted w ++ [Server.leaveRoom room uid].
Proof.
  intros Hs Hc Hu. unfold leaveRoom, emit. rewrite Hs, Hc, Hu.
  set (w3 := setUsers [] (setCurrentRoom None
                (with_emitted (emitted w ++ [Server.leaveRoom room uid]) w))).
  destruct (destroy_all_frame (peers r) w3) as (Hh & Hp & Hst & He & _).
  pose proof (stopped_destroy_all (peers r) w3) as Hsp.
  cbn -[destroy_all]. rewrite Hh, Hp, Hst, He, Hsp.
  repeat split; try done. by apply destroy_all_ext.
Qed.

(** After a commit that follows the destruction of the peers a map names,
    exactly those peers are destroyed. *)
Lemma objs_after_release w w' q :
  peerObjs w' = peerObjs (destroy_all (peers (hooks w)) w) →
  peerMaps w' = peerMaps w ++ [∅] →
  peerObjs (commit (hooks w) w') !! q
  = (if decide (q ∈ (map_to_list (peerMap w (peers (hooks w)))).*2)
     then destroy_peer else id) <$> (peerObjs w !! q).
Proof.
  intros Ho Hm. rewrite <- destroy_all_lookup.
  destruct (commit_objs (hooks w) w') as [->| ->]; [by rewrite Ho|].
  rewrite (destroy_all_twice _ w w'); [done| |done].
  unfold peerMap. rewrite Hm. apply default_snoc_empty.
Qed.

Lemma released_maps w w' :
  peerMaps w' = peerMaps w ++ [∅] → streamMaps w' = streamMaps w ++ [∅] →
  peerMap w' (length (peerMaps w)) = ∅ ∧ streamMap w' (length (streamMaps w)) = ∅.
Proof.
  intros Hp Hs. unfold peerMap, streamMap. rewrite Hp, Hs.
  by rewrite !lookup_snoc_at by done.
Qed.

(** [endCall] with no local stream does nothing.  With one, after the step
    its tracks are stopped, there is no local stream and no active call, the
    two maps of the next render are empty, every peer the map of peers named
    is destroyed and no other peer is touched, nothing is sent to the
    server, and the room is not left. *)
Theorem endCall_releases w :
  (localStream (hooks w) = None → step w call_endCall = w)
  ∧ (∀ ls, localStream (hooks w) = Some ls →
       localStream (hooks (step w call_endCall)) = None
       ∧ isCallActive (hooks (step w call_endCall)) = false
       ∧ ls ∈ stopped (step w call_endCall)
       ∧ peerMap (step w call_endCall) (peers (hooks (step w call_endCall))) = ∅
       ∧ streamMap (step w call_endCall) (remoteStreams (hooks (step w call_endCall))) = ∅
       ∧ (∀ k q p, peerMap w (peers (hooks w)) !! k = Some q → peerObjs w !! q = Some p →
            peerObjs (step w call_endCall) !! q = Some (destroy_peer p))
       ∧ (∀ q, (∀ k, peerMap w (peers (hooks w)) !! k ≠ Some q) →
            peerObjs (step w call_endCall) !! q = peerObjs w !! q)
       ∧ emitted (step w call_endCall) = emitted w
       ∧ currentRoom (hooks (step w call_endCall)) = currentRoom (hooks w)).
Proof.
  split.
  - intros H. unfold step. cbn [listener]. unfold endCall. rewrite H. apply commit_same.
  - intros ls Hl. unfold step. cbn [listener].
    destruct (endCall_fields (hooks w) w ls Hl) as (Hh & Hp & Hs & Ho & Hst & He).
    destruct (released_maps w _ Hp Hs) as [Hpe Hse].
    rewrite !hooks_commit, !peerMap_commit, !streamMap_commit, emitted_commit, Hh, He.
    cbn [localStream isCallActive peers remoteStreams currentRoom].
    repeat split; try done.
    + apply stopped_commit. rewrite Hst. apply elem_of_union. left.
      by apply elem_of_singleton.
    + intros k q p Hk Hq. rewrite (objs_after_release w _ q Ho Hp), Hq.
      rewrite decide_True; [done|]. apply named_by_map. eauto.
    + intros q Hq. rewrite (objs_after_release w _ q Ho Hp).
      rewrite decide_False; [by destruct (peerObjs w !! q)|].
      rewrite named_by_map. intros [k Hk]. by eapply Hq.
Qed.

Lemma endCall_releases_witness :
  7 ∈ stopped (step (in_call [member_A; member_B]) call_endCall)
  ∧ localStream (hooks (step (in_call [member_A; member_B]) call_endCall)) = None
  ∧ emitted (step (in_call [member_A; member_B]) call_endCall)
    = emitted (in_call [member_A; member_B]).
Proof.
  pose proof (endCall_releases (in_call [member_A; member_B])) as [_ H].
  destruct (H 7) as (Hl & _ & Hs & _ & _ & _ & _ & He & _); [reflexivity|].
  split; [exact Hs|]. split; [exact Hl|exact He].
Defined.

Lemma commit_cleanup r w :
  peers r ≠ peers (hooks w) →
  peerObjs (commit r w) = peerObjs (destroy_all (peers r) w)
  ∧ (∀ ls, localStream r = Some ls → ls ∈ stopped (commit r w)).
Proof.
  intros Hne. unfold commit.
  rewrite (decide_False (P := localStream r = _ ∧ _)) by (intros [_ ?]; done).
  assert (peerObjs (cleanup_media r w) = peerObjs (destroy_all (peers r) w)) as Ho.
  { unfold cleanup_media. apply destroy_all_ext; by destruct (localStream r). }
  assert (∀ ls, localStream r = Some ls → ls ∈ stopped (cleanup_media r w)) as Hs.
  { intros ls Hl. unfold cleanup_media. rewrite Hl, stopped_destroy_all. simpl.
    apply elem_of_union. left. by apply elem_of_singleton. }
  by case_decide.
Qed.

(** [leaveRoom] without a socket, without a current room (none, or the empty
    string) or without a user does nothing.  Otherwise, after the step, one
    [leaveRoom] for the current room and the user has been sent, there is no
    current room and no user in [users], the two maps of the next render
    are empty, every peer the map of peers named is destroyed and no other
    peer is touched, and the local stream and the call flag of the state
    are as before; but the [peers] state has changed, so the clean-up of the
    last effect has stopped the tracks of that local stream. *)
Theorem leaveRoom_releases w :
  (socket (hooks w) = None ∨ truthy (currentRoom (hooks w)) = None ∨ user (hooks w) = None →
     step w call_leaveRoom = w)
  ∧ (∀ id room uid,
       socket (hooks w) = Some id → truthy (currentRoom (hooks w)) = Some room →
       user (hooks w) = Some uid →
       emitted (step w call_leaveRoom) = emitted w ++ [Server.leaveRoom room uid]
       ∧ currentRoom (hooks (step w call_leaveRoom)) = None
       ∧ users (hooks (step w call_leaveRoom)) = []
       ∧ peerMap (step w call_leaveRoom) (peers (hooks (step w call_leaveRoom))) = ∅
       ∧ streamMap (step w call_leaveRoom)
           (remoteStreams (hooks (step w call_leaveRoom))) = ∅
       ∧ (∀ k q p, peerMap w (peers (hooks w)) !! k = Some q → peerObjs w !! q = Some p →
            peerObjs (step w call_leaveRoom) !! q = Some (destroy_peer p))
       ∧ (∀ q, (∀ k, peerMap w (peers (hooks w)) !! k ≠ Some q) →
            peerObjs (step w call_leaveRoom) !! q = peerObjs w !! q)
       ∧ localStream (hooks (step w call_leaveRoom)) = localStream (hooks w)
       ∧ isCallActive (hooks (step w call_leaveRoom)) = isCallActive (hooks w)
       ∧ (∀ ls, localStream (hooks w) = Some ls → peers (hooks w) < length (peerMaps w) →
            ls ∈ stopped (step w call_leaveRoom))).
Proof.
  split.
  - intros H. unfold step. cbn [listener]. unfold leaveRoom.
    assert (match socket (hooks w), truthy (currentRoom (hooks w)), user (hooks w) with
            | Some _, Some _, Some _ => False
            | _, _, _ => True
            end) as Hnone.
    { destruct H as [-> | [-> | ->]]; repeat case_match; done. }
    destruct (socket (hooks w)), (truthy (currentRoom (hooks w))), (user (hooks w));
      try done; apply commit_same.
  - intros id room uid Hs Hc Hu. unfold step. cbn [listener].
    destruct (leaveRoom_fields (hooks w) w id room uid Hs Hc Hu)
      as (Hh & Hp & Hst & Ho & _ & He).
    destruct (released_maps w _ Hp Hst) as [Hpe Hse].
    rewrite !hooks_commit, !peerMap_commit, !streamMap_commit, emitted_commit, Hh, He.
    cbn [localStream isCallActive peers remoteStreams currentRoom users].
    repeat split; try done.
    + intros k q p Hk Hq. rewrite (objs_after_release w _ q Ho Hp), Hq.
      rewrite decide_True; [done|]. apply named_by_map. eauto.
    + intros q Hq. rewrite (objs_after_release w _ q Ho Hp).
      rewrite decide_False; [by destruct (peerObjs w !! q)|].
      rewrite named_by_map. intros [k Hk]. by eapply Hq.
    + intros ls Hl Hlt.
      destruct (commit_cleanup (hooks w) (leaveRoom (hooks w) w)) as [_ H]; [|by apply H].
      rewrite Hh. simpl. lia.
Qed.

Lemma leaveRoom_releases_witness :
  step (in_call [member_A]) call_leaveRoom = in_call [member_A]
  ∧ step (step (in_call [member_A]) (call_joinRoom "")) call_leaveRoom
    = step (in_call [member_A]) (call_joinRoom "")
  ∧ emitted (step (in_room_call [member_A]) call_leaveRoom)
    = emitted (in_room_call [member_A]) ++ [Server.leaveRoom "apt-42" "me"]
  ∧ 7 ∈ stopped (step (in_room_call [member_A]) call_leaveRoom).
Proof.
  split; [|split].
  - apply (leaveRoom_releases (in_call [member_A])). right. left. reflexivity.
  - apply (leaveRoom_releases (step (in_call [member_A]) (call_joinRoom ""))).
    right. left. reflexivity.
  - pose proof (leaveRoom_releases (in_room_call [member_A])) as [_ H].
    destruct (H "X" "apt-42" "me") as (He & _ & _ & _ & _ & _ & _ & _ & _ & Hs);
      [reflexivity|reflexivity|reflexivity|].
    split; [exact He|]. apply Hs; [reflexivity|]. vm_compute. lia.
Defined.

(** *** The clean-up of the last effect *)

(** Whatever the input, a step that changes the [peers] state runs the
    clean-up of the render before it: every peer that the [Map] of that
    render names once the listener has returned is destroyed after the step,
    and the tracks of the local stream of that render are stopped. *)
Theorem peers_change_runs_the_cleanup w i :
  peers (hooks (step w i)) ≠ peers (hooks w) →
  (∀ k q p, peerMap (step w i) (peers (hooks w)) !! k = Some q →
     peerObjs (step w i) !! q = Some p → destroyed p = true)
  ∧ (∀ ls, localStream (hooks w) = Some ls → ls ∈ stopped (step w i)).
Proof.
  unfold step. rewrite hooks_commit, peerMap_commit. intros Hne.
  destruct (commit_cleanup (hooks w) (listener i (hooks w) w)) as [Ho Hs]; [done|].
  split; [|exact Hs]. intros k q p Hk. rewrite Ho, destroy_all_lookup.
  rewrite decide_True by (apply named_by_map; eauto).
  destruct (peerObjs _ !! q); simpl; [|done]. by intros [= <-].
Qed.

Lemma peers_change_runs_the_cleanup_witness :
  7 ∈ stopped (step (in_room_call [member_A]) call_leaveRoom).
Proof.
  apply (peers_change_runs_the_cleanup (in_room_call [member_A]) call_leaveRoom);
    [vm_compute; lia|reflexivity].
Defined.

(** *** Setting up a call *)

Lemma stopped_commit_none r w : localStream r = None → stopped (commit r w) = stopped w.
Proof.
  intros Hl. unfold commit, cleanup_media. rewrite Hl.
  repeat case_decide; simpl; by rewrite ?stopped_destroy_all.
Qed.

Lemma stopped_commit_same r w :
  localStream r = localStream (hooks w) → peers r = peers (hooks w) →
  stopped (commit r w) = stopped w.
Proof.
  intros Hl Hp. unfold commit. rewrite (decide_True (P := localStream r = _ ∧ _)) by done.
  by case_decide.
Qed.

(** From the mounted provider, the list of members and the local stream may
    arrive in either order: in both, afterwards the [users] are the list,
    the local stream is set and the call is marked active, nothing was sent
    and no track was stopped, and no peer was made: the first
    [createPeerConnection] throws. *)
Theorem call_setup_makes_no_session user id l s :
  (users (hooks (run [recv (Server.roomUsers l); call_startCall (Some s)]
                  (mounted user id))) = l
   ∧ localStream (hooks (run [recv (Server.roomUsers l); call_startCall (Some s)]
                           (mounted user id))) = Some s
   ∧ isCallActive (hooks (run [recv (Server.roomUsers l); call_startCall (Some s)]
                            (mounted user id))) = true
   ∧ peerObjs (run [recv (Server.roomUsers l); call_startCall (Some s)]
                 (mounted user id)) = []
   ∧ emitted (run [recv (Server.roomUsers l); call_startCall (Some s)] (mounted user id))
     = emitted (mounted user id)
   ∧ stopped (run [recv (Server.roomUsers l); call_startCall (Some s)] (mounted user id))
     = ∅)
  ∧ (users (hooks (run [call_startCall (Some s); recv (Server.roomUsers l)]
                     (mounted user id))) = l
     ∧ localStream (hooks (run [call_startCall (Some s); recv (Server.roomUsers l)]
                             (mounted user id))) = Some s
     ∧ isCallActive (hooks (run [call_startCall (Some s); recv (Server.roomUsers l)]
                              (mounted user id))) = true
     ∧ peerObjs (run [call_startCall (Some s); recv (Server.roomUsers l)]
                   (mounted user id)) = []
     ∧ emitted (run [call_startCall (Some s); recv (Server.roomUsers l)] (mounted user id))
       = emitted (mounted user id)
     ∧ stopped (run [call_startCall (Some s); recv (Server.roomUsers l)] (mounted user id))
       = ∅).
Proof.
  split; (split; [|split; [|split; [|split; [apply no_peer_run|split]]]]);
    cbn [run foldl]; unfold step; cbn [listener];
    rewrite ?startCall_eq, ?on_roomUsers_eq;
    repeat (first [ rewrite hooks_commit | rewrite emitted_commit
                  | rewrite stopped_commit_none
                      by (simpl; rewrite ?hooks_commit; reflexivity)
                  | rewrite stopped_commit_same
                      by (simpl; rewrite ?hooks_commit; reflexivity)
                  | progress simpl ]);
    reflexivity.
Qed.

(** *** No session, ever *)

Lemma maps_empty {V} (l : list (gmap string V)) a :
  Forall (λ m, m = ∅) l → default ∅ (l !! a) = ∅.
Proof.
  intros H. destruct (l !! a) as [m|] eqn:E; [|done].
  simpl. by apply (Forall_lookup_1 _ _ _ _ H E).
Qed.

Lemma maps_empty_snoc {V} (l : list (gmap string V)) :
  Forall (λ m, m = ∅) l → Forall (λ m, m = ∅) (l ++ [∅]).
Proof. intros H. apply Forall_app. split; [done|]. by constructor. Qed.

Lemma empty_maps_step w i :
  peerObjs w = [] →
  Forall (λ m, m = ∅) (peerMaps w) → Forall (λ m, m = ∅) (streamMaps w) →
  Forall (λ m, m = ∅) (peerMaps (step w i))
  ∧ Forall (λ m, m = ∅) (streamMaps (step w i)).
Proof.
  intros Ho Hp Hs. unfold step.
  destruct (commit_frame (hooks w) (listener i (hooks w) w)) as (_ & -> & -> & _).
  assert (∀ a, peerMap w a = ∅) as Hpe by (intros a; by apply maps_empty).
  assert (∀ a, streamMap w a = ∅) as Hse by (intros a; by apply maps_empty).
  destruct i as [[l|u|u|o from|a from|c from]|q d|q s|q|q|room| |[s|]| | ];
    cbn [listener].
  - by rewrite on_roomUsers_eq.
  - done.
  - unfold on_userLeftRoom. cbn [peerMap streamMap setUsers with_hooks peerMaps streamMaps].
    change (peerMap (setUsers _ w) (peers (hooks w))) with (peerMap w (peers (hooks w))).
    rewrite Hpe, lookup_empty.
    change (streamMap (setUsers _ w) (remoteStreams (hooks w)))
      with (streamMap w (remoteStreams (hooks w))).
    by rewrite Hse, lookup_empty.
  - by rewrite on_receiveOffer_eq.
  - unfold on_receiveAnswer. by rewrite Hpe, lookup_empty.
  - unfold on_receiveIceCandidate. by rewrite Hpe, lookup_empty.
  - unfold on_peer. by rewrite Ho.
  - unfold on_peer. by rewrite Ho.
  - unfold on_peer. by rewrite Ho.
  - unfold on_peer. by rewrite Ho.
  - unfold joinRoom, emit. by destruct (socket (hooks w)), (user (hooks w)).
  - destruct (socket (hooks w)) as [id|] eqn:Es;
      [|by unfold leaveRoom; rewrite Es].
    destruct (truthy (currentRoom (hooks w))) as [room|] eqn:Ec;
      [|by unfold leaveRoom; rewrite Es, Ec].
    destruct (user (hooks w)) as [uid|] eqn:Eu;
      [|by unfold leaveRoom; rewrite Es, Ec, Eu].
    destruct (leaveRoom_fields (hooks w) w id room uid Es Ec Eu) as (_ & -> & -> & _).
    split; by apply maps_empty_snoc.
  - by rewrite startCall_eq.
  - done.
  - destruct (localStream (hooks w)) as [ls|] eqn:El; [|by unfold endCall; rewrite El].
    destruct (endCall_fields (hooks w) w ls El) as (_ & -> & -> & _).
    split; by apply maps_empty_snoc.
  - by destruct (cleanup_media_frame (hooks w) w) as (_ & -> & -> & _).
Qed.

Lemma empty_maps_run inputs user id :
  Forall (λ m, m = ∅) (peerMaps (run inputs (mounted user id)))
  ∧ Forall (λ m, m = ∅) (streamMaps (run inputs (mounted user id))).
Proof.
  assert (∀ w, peerObjs w = [] →
               Forall (λ m, m = ∅) (peerMaps w) → Forall (λ m, m = ∅) (streamMaps w) →
               Forall (λ m, m = ∅) (peerMaps (run inputs w))
               ∧ Forall (λ m, m = ∅) (streamMaps (run inputs w))) as H.
  { induction inputs as [|i inputs IH]; intros w Ho Hp Hs; [done|].
    cbn [run foldl]. destruct (empty_maps_step w i Ho Hp Hs) as [Hp' Hs'].
    apply IH; [|done|done].
    pose proof (peers_after_step w i) as Hstep. rewrite Ho in Hstep. by inversion Hstep. }
  apply H; [done| |]; by repeat constructor.
Qed.

(** In every run of the mounted provider there is no peer at any moment,
    the maps of peers and of remote streams have no entry, and a
    [userLeftRoom] changes the list of users and nothing else. *)
Theorem no_session_in_any_run inputs user id :
  peerObjs (run inputs (mounted user id)) = []
  ∧ (∀ k, peerMap (run inputs (mounted user id))
            (peers (hooks (run inputs (mounted user id)))) !! k = None)
  ∧ (∀ k, streamMap (run inputs (mounted user id))
            (remoteStreams (hooks (run inputs (mounted user id)))) !! k = None)
  ∧ (∀ u, listener (recv (Server.userLeftRoom u)) (hooks (run inputs (mounted user id)))
            (run inputs (mounted user id))
          = setUsers (filter (λ x, Server.socketId x ≠ Server.socketId u)
                        (users (hooks (run inputs (mounted user id)))))
              (run inputs (mounted user id))).
Proof.
  destruct (empty_maps_run inputs user id) as [Hp Hs].
  set (W := run inputs (mounted user id)) in *.
  assert (∀ a, peerMap W a = ∅) as Hpe by (intros a; by apply maps_empty).
  assert (∀ a, streamMap W a = ∅) as Hse by (intros a; by apply maps_empty).
  split; [apply no_peer_run|]. split; [|split].
  - intros k. by rewrite Hpe, lookup_empty.
  - intros k. by rewrite Hse, lookup_empty.
  - intros u. cbn [listener]. unfold on_userLeftRoom.
    change (peerMap (setUsers _ W) (peers (hooks W))) with (peerMap W (peers (hooks W))).
    rewrite Hpe, lookup_empty.
    change (streamMap (setUsers _ W) (remoteStreams (hooks W)))
      with (streamMap W (remoteStreams (hooks W))).
    by rewrite Hse, lookup_empty.
Qed.

End ClientMore.

(** ** The client and the server together *)

Section Together.

Import Client.

Implicit Types (w : World) (st : Server.State).

(** The join handshake.  A client with a socket and a user that calls
    [joinRoom] sends one [joinRoom] with the room and its user id and takes
    the room as its current room.  When the room id names no property that
    [rooms] inherits, the server enters the socket in the room after the
    members it had; and when moreover the socket sits in the socket.io room
    of its own id, the server's reply to it is one [roomUsers], and when the
    client has handled it the [users] of the client are the members the
    room had before, without the entries of the client's own connection
    id. *)
Theorem join_handshake w st sid uid room :
  socket (hooks w) = Some sid → user (hooks w) = Some uid →
  Server.room_value st room ≠ Server.inherited_value →
  sid ∈ Server.room_sockets st sid →
  emitted (step w (call_joinRoom room)) = emitted w ++ [Server.joinRoom room uid]
  ∧ currentRoom (hooks (step w (call_joinRoom room))) = Some room
  ∧ Server.members (Server.step st (Server.Message sid (Server.joinRoom room uid))) room
    = Server.members st room ++ [Server.mkMember sid uid]
  ∧ users (hooks (run (recv <$> Server.received sid
                                  (Server.handle
                                     (Server.Message sid (Server.joinRoom room uid)) st).2)
                    (step w (call_joinRoom room))))
    = Server.others sid (Server.members st room)
  ∧ (sid ∉ Server.socketId <$>
             users (hooks (run (recv <$> Server.received sid
                                  (Server.handle
                                     (Server.Message sid (Server.joinRoom room uid)) st).2)
                             (step w (call_joinRoom room))))).
Proof.
  intros Hs Hu Hv Hc.
  assert (users (hooks (run (recv <$> Server.received sid
                                  (Server.handle
                                     (Server.Message sid (Server.joinRoom room uid)) st).2)
                    (step w (call_joinRoom room))))
          = Server.others sid (Server.members st room)) as Husers.
  { cbn [Server.handle]. rewrite received_join_sender by done.
    cbn [fmap list_fmap run foldl].
    unfold step at 1. rewrite hooks_commit. cbn [listener].
    by rewrite on_roomUsers_eq. }
  split; [|split; [|split; [|split]]].
  - unfold step. rewrite emitted_commit. cbn [listener]. unfold joinRoom, emit.
    by rewrite Hs, Hu.
  - unfold step. rewrite hooks_commit. cbn [listener]. unfold joinRoom, emit.
    by rewrite Hs, Hu.
  - rewrite members_step. by rewrite decide_True.
  - exact Husers.
  - rewrite Husers. apply others_not_member.
Qed.

Lemma join_handshake_witness :
  users (hooks (run (recv <$> Server.received "Y"
                                (Server.handle
                                   (Server.Message "Y" (Server.joinRoom "apt-42" "me"))
                                   X_in_room).2)
                  (step (mounted (Some "me") "Y") (call_joinRoom "apt-42"))))
  = Server.others "Y" (Server.members X_in_room "apt-42").
Proof.
  pose proof (join_handshake (mounted (Some "me") "Y") X_in_room "Y" "me" "apt-42")
    as (_ & _ & _ & H & _); [reflexivity|reflexivity|by vm_compute|by vm_compute|].
  exact H.
Defined.

End Together.
